(** * script.py: SEO metadata batch for the [cokw3_content] table

    A shallow embedding of [script.py]: the Python values the script
    handles, its string helpers, the five functions of the pipeline
    ([get_content_records], [clean_html_text], [get_clean_content],
    [generate_meta_with_deepseek], [update_content_meta]) and the batch
    loop [process_records], followed by the properties of the pipeline.

    Conventions.
    - A Python [str] is a list of code points.
    - A fetched row is a [dict], modelled as a [gmap string pyval].
    - Of the console output the model keeps what can raise: the
      expressions evaluated to build a message, and the encoding of the
      generated text that lines 150 and 151 print (the console is taken
      to encode in UTF-8, strictly).
    - Calls that leave the process (HTTP request, SQL statements, sleep)
      are recorded in a trace. What the outside world answers is read from
      an environment. *)

From Stdlib Require Import ZArith NArith List String Ascii Bool Lia.
From Stdlib Require Import Floats.SpecFloat.
From stdpp Require Import base decidable option list gmap strings sorting.

Open Scope Z_scope.

(** ** Python strings *)

Module PyStr.

(** A [str] is a sequence of Unicode code points. *)
Definition pystr := list N.

(** An ASCII literal of the source as a [pystr]. *)
Definition lit (s : string) : pystr :=
  List.map N_of_ascii (list_ascii_of_string s).

Definition eqb (a b : pystr) : bool := bool_decide (a = b).

(** [str.isspace] on one code point: the characters [str.strip()]
    removes when called without argument. *)
Definition is_space (c : N) : bool :=
  ((9 <=? c) && (c <=? 13) || (28 <=? c) && (c <=? 32)
   || (c =? 133) || (c =? 160) || (c =? 5760)
   || (8192 <=? c) && (c <=? 8202)
   || (c =? 8232) || (c =? 8233) || (c =? 8239) || (c =? 8287)
   || (c =? 12288))%N.

Fixpoint lstrip (s : pystr) : pystr :=
  match s with
  | c :: s' => if is_space c then lstrip s' else s
  | [] => []
  end.

Definition rstrip (s : pystr) : pystr := reverse (lstrip (reverse s)).

(** [s.strip()] *)
Definition strip (s : pystr) : pystr := rstrip (lstrip s).

Fixpoint starts_with (p s : pystr) : bool :=
  match p, s with
  | [], _ => true
  | a :: p', b :: s' => (a =? b)%N && starts_with p' s'
  | _ :: _, [] => false
  end.

(** [needle in s] for two strings. *)
Fixpoint contains (needle s : pystr) : bool :=
  starts_with needle s ||
  match s with
  | [] => false
  | _ :: s' => contains needle s'
  end.

(** [s.replace(old, new)] for a non-empty [old]: every occurrence, left
    to right, non-overlapping. [skip] counts the characters of a matched
    occurrence that are still to be dropped. *)
Fixpoint replace_from (old new : pystr) (skip : nat) (s : pystr) : pystr :=
  match s with
  | [] => []
  | c :: s' =>
      match skip with
      | S k => replace_from old new k s'
      | O =>
          if starts_with old s
          then new ++ replace_from old new (Nat.pred (length old)) s'
          else c :: replace_from old new O s'
      end
  end.

Definition replace (old new s : pystr) : pystr := replace_from old new O s.

(** Neither end of [s] is a whitespace character. *)
Definition trimmed (s : pystr) : Prop :=
  (∀ c, head s = Some c → is_space c = false) ∧
  (∀ c, last s = Some c → is_space c = false).

(** [s] is made of whitespace only (the empty string included). *)
Definition blank (s : pystr) : bool := forallb is_space s.

End PyStr.
Export PyStr.

(** ** Python values *)

(** The values that reach the script: what the MySQL connector puts in a
    row and what [json.loads] builds. A JSON object is kept as the list
    of its members; [dict_get] reads it. *)
#[warnings="-register-all"]
Inductive pyval :=
| PNone
| PBool (b : bool)
| PInt (z : Z)
| PFloat (f : spec_float)
| PStr (s : pystr)
| PList (l : list pyval)
| PDict (d : list (pystr * pyval)).

(** The exceptions the script can meet. [SqlError] is
    [mysql.connector.Error], the only class the storage functions catch. *)
Inductive exn :=
| KeyError
| IndexError
| TypeError
| AttributeError
| RequestException
| HTTPError
| JSONDecodeError
| SqlError
| ParserRejectedMarkup
| UnicodeEncodeError.

(** A computation that returns or raises. *)
Definition exc (A : Type) : Type := (exn + A)%type.

#[global] Instance exc_ret : MRet exc := λ A x, inr x.
#[global] Instance exc_bind : MBind exc := λ A B f m,
  match m with
  | inl e => inl e
  | inr x => f x
  end.

Definition raise {A} (e : exn) : exc A := inl e.

Definition returns {A} (m : exc A) : bool :=
  match m with
  | inr _ => true
  | inl _ => false
  end.

Definition float_is_zero (f : spec_float) : bool :=
  match f with
  | S754_zero _ => true
  | _ => false
  end.

(** [bool(v)] *)
Definition truthy (v : pyval) : bool :=
  match v with
  | PNone => false
  | PBool b => b
  | PInt z => negb (z =? 0)
  | PFloat f => negb (float_is_zero f)
  | PStr s => negb (PyStr.eqb s [])
  | PList l => match l with [] => false | _ => true end
  | PDict d => match d with [] => false | _ => true end
  end.

(** [v == 0] *)
Definition eq_zero (v : pyval) : bool :=
  match v with
  | PInt z => z =? 0
  | PBool b => negb b
  | PFloat f => float_is_zero f
  | _ => false
  end.

Fixpoint dict_get (k : pystr) (d : list (pystr * pyval)) : option pyval :=
  match d with
  | [] => None
  | (k', v) :: d' => if PyStr.eqb k k' then Some v else dict_get k d'
  end.

(** [v[k]] for a string key [k]: a lookup in a [dict], an exception on
    anything else. *)
Definition getitem_str (v : pyval) (k : pystr) : exc pyval :=
  match v with
  | PDict d =>
      match dict_get k d with
      | Some x => mret x
      | None => raise KeyError
      end
  | _ => raise TypeError
  end.

(** [v[0]] *)
Definition getitem_0 (v : pyval) : exc pyval :=
  match v with
  | PList (x :: _) => mret x
  | PList [] => raise IndexError
  | PStr (c :: _) => mret (PStr [c])
  | PStr [] => raise IndexError
  | PDict _ => raise KeyError
  | _ => raise TypeError
  end.

(** [len(v)] *)
Definition py_len (v : pyval) : exc nat :=
  match v with
  | PStr s => mret (length s)
  | PList l => mret (length l)
  | PDict d => mret (length d)
  | _ => raise TypeError
  end.

(** [k in v] for a string [k] *)
Definition contains_str (k : pystr) (v : pyval) : exc bool :=
  match v with
  | PDict d => mret (bool_decide (is_Some (dict_get k d)))
  | PList l =>
      mret (existsb (λ x, match x with PStr s => PyStr.eqb s k | _ => false end) l)
  | PStr s => mret (PyStr.contains k s)
  | _ => raise TypeError
  end.

(** [v[:50]]: strings and lists can be sliced. *)
Definition slice_to (k : nat) (v : pyval) : exc pyval :=
  match v with
  | PStr s => mret (PStr (take k s))
  | PList l => mret (PList (take k l))
  | _ => raise TypeError
  end.

(** ** The outside world *)

(** A row as the script's [SELECT] returns it. *)
Abbreviation record := (gmap string pyval).

(** The columns of [cokw3_content] other than the key. *)
Record row := Row {
  title : pyval;
  fulltext : pyval;
  introtext : pyval;
  metakey : pyval;
  metadesc : pyval;
  state : pyval
}.

(** What leaves the process. *)
Inductive event :=
| EvQuery (limit : option Z)                      (* the SELECT, sent *)
| EvPost (title : pyval) (content : pystr)        (* requests.post *)
| EvExecute (record_id meta_keywords meta_description : pyval)  (* the UPDATE, sent *)
| EvCommit                                        (* connection.commit() *)
| EvSleep (seconds : Z).                          (* time.sleep *)

(** What [requests.post] comes back with. *)
Inductive http_outcome :=
| ConnectionFailure                      (* the call raises: no route, timeout *)
| Response (status : Z) (body : pystr).

(** The collaborators of the script. Each answer may depend on everything
    the script has done so far, the call being answered included. *)
Record environment := Environment {
  (** [json.loads]; [None] when it raises [JSONDecodeError]. *)
  json_loads : pystr → option pyval;
  (** [BeautifulSoup(html, 'html.parser').get_text()]; [None] when the
      parser gives up on the markup and raises. *)
  soup_get_text : pystr → option pystr;
  http_post : list event → http_outcome;
  (** Does the server accept the statement / the commit? *)
  sql_execute_ok : list event → bool;
  sql_commit_ok : list event → bool;
  (** The key MySQL compares [id] with when the parameter of [WHERE] is a
      string or a float (its implicit cast). *)
  sql_cast : pyval → option Z;
  (** Does [connection.cursor()] give a cursor? It raises [Error] when
      the connection is not available. *)
  sql_cursor_ok : list event → bool
}.

(** The table as committed, the table as the open transaction of the
    connection sees it, and the calls made so far (oldest first). *)
Record world := World {
  committed : gmap Z row;
  session : gmap Z row;
  trace : list event
}.

Definition log (e : event) (w : world) : world :=
  World (committed w) (session w) (trace w ++ [e]).

(** A computation on the world that returns or raises. *)
Definition M (A : Type) : Type := world → exc A * world.

#[global] Instance M_ret : MRet M := λ A x w, (inr x, w).
#[global] Instance M_bind : MBind M := λ A B f m w,
  match m w with
  | (inl e, w') => (inl e, w')
  | (inr x, w') => f x w'
  end.

Definition lift {A} (m : exc A) : M A := λ w, (m, w).

(** ** Configuration *)

Definition RECORDS_LIMIT : option Z := Some 2.
Definition API_DELAY : Z := 1.

(** ** The script *)

Section Script.

Context (E : environment).

(** *** Storage: reading *)

(** The [dict] the cursor builds for one row ([dictionary=True]). *)
Definition fetch_row (kv : Z * row) : record :=
  {[ "id" := PInt kv.1;
     "title" := title kv.2;
     "fulltext" := fulltext kv.2;
     "introtext" := introtext kv.2;
     "metakey" := metakey kv.2;
     "metadesc" := metadesc kv.2;
     "state" := state kv.2 ]}.

(** [ORDER BY `id`] *)
Definition by_id : relation (Z * row) := λ a b, a.1 ≤ b.1.

#[global] Instance by_id_dec : RelDecision by_id.
Proof. intros a b. unfold by_id. apply _. Defined.

(** The [LIMIT] clause appended to the query, if any: [if limit:] is a
    truth test, so [None] and [0] both leave the query as it is. *)
Definition limit_clause (limit : option Z) : option Z :=
  match limit with
  | Some n => if truthy (PInt n) then Some n else None
  | None => None
  end.

(** MySQL's [LIMIT n]: the first [n] rows; a negative [n] is a syntax
    error. *)
Definition sql_limit {A} (clause : option Z) (rows : list A) : exc (list A) :=
  match clause with
  | None => mret rows
  | Some n => if n <? 0 then raise SqlError else mret (take (Z.to_nat n) rows)
  end.

(** [get_content_records(connection, limit)]; [None] is Python's [None].
    Without a cursor no query is sent. *)
Definition get_content_records (limit : option Z) : M (option (list record)) :=
  λ w,
    if sql_cursor_ok E (trace w) then
      let clause := limit_clause limit in
      let w' := log (EvQuery clause) w in
      let fetched :=
        if sql_execute_ok E (trace w')
        then sql_limit clause (merge_sort by_id (map_to_list (session w')))
        else raise SqlError in
      match fetched with
      | inr rows => (inr (Some (fetch_row <$> rows)), w')
      | inl _ => (inr None, w')       (* except Error: return None *)
      end
    else (inr None, w).               (* except Error: return None *)

(** *** Text extraction *)

(** [clean_html_text(html)]. Nothing catches what the parser raises. *)
Definition clean_html_text (html : pyval) : exc pystr :=
  if negb (truthy html) then mret []
  else
    match html with
    | PStr s =>
        match soup_get_text E s with
        | Some text => mret (strip text)
        | None => raise ParserRejectedMarkup
        end
    | _ => raise TypeError          (* BeautifulSoup wants markup *)
    end.

(** [str(v).strip() == '']. [str] of a value that is not a string is its
    printed form, which is never blank. *)
Definition str_strip_is_empty (v : pyval) : bool :=
  match v with
  | PStr s => PyStr.eqb (strip s) []
  | _ => false
  end.

(** [record.get(key, '')] *)
Definition get_or_empty (r : record) (key : string) : pyval :=
  default (PStr []) (r !! key).

(** The body [get_clean_content] hands to [clean_html_text]. *)
Definition chosen_body (r : record) : pyval :=
  let content := get_or_empty r "fulltext" in
  if negb (truthy content) || str_strip_is_empty content
  then get_or_empty r "introtext"
  else content.

(** [get_clean_content(record)] *)
Definition get_clean_content (r : record) : exc pystr :=
  clean_html_text (chosen_body r).

(** *** Generation *)

(** [response.raise_for_status()] raises for 4xx and 5xx. *)
Definition raise_for_status (status : Z) : exc unit :=
  if (400 <=? status) && (status <? 600) then raise HTTPError else mret ().

(** [json.loads(s)] *)
Definition loads (s : pystr) : exc pyval :=
  match json_loads E s with
  | Some v => mret v
  | None => raise JSONDecodeError
  end.

Definition fence_json : pystr := lit "```json".
Definition fence : pystr := lit "```".

(** [content.replace('```json', '').replace('```', '').strip()] *)
Definition strip_fences (v : pyval) : exc pystr :=
  match v with
  | PStr s => mret (strip (replace fence [] (replace fence_json [] s)))
  | _ => raise AttributeError
  end.

(** The body of the [try] of [generate_meta_with_deepseek], from the
    answer to the request on: [inr (Some v)] is [return v], [inr None]
    is falling out of the [if]. *)
Definition read_completion (answer : http_outcome) : exc (option pyval) :=
  match answer with
  | ConnectionFailure => raise RequestException
  | Response status body =>
      _ ← raise_for_status status;
      result ← loads body;
      has_choices ← contains_str (lit "choices") result;
      if (has_choices : bool) then
        choices ← getitem_str result (lit "choices");
        n ← py_len choices;
        if (0 <? (n : nat))%nat then
          first ← getitem_0 choices;
          message ← getitem_str first (lit "message");
          content ← getitem_str message (lit "content");
          content ← strip_fences content;
          v ← loads content;
          mret (Some v)
        else mret None
      else mret None
  end.

(** [generate_meta_with_deepseek(title, content)]: one request, then
    [read_completion] under [except Exception]. Python's [None] is
    [PNone]. *)
Definition generate_meta_with_deepseek (title : pyval) (content : pystr)
  : M pyval :=
  λ w,
    let w' := log (EvPost title content) w in
    match read_completion (http_post E (trace w')) with
    | inr (Some v) => (inr v, w')
    | inr None => (inr PNone, w')
    | inl _ => (inr PNone, w')
    end.

(** *** Storage: writing *)

(** Can the connector turn the parameter into a MySQL literal? It
    refuses lists and dicts with a [ProgrammingError]. *)
Definition sql_convertible (v : pyval) : bool :=
  match v with
  | PList _ | PDict _ => false
  | _ => true
  end.

(** The key of the row [WHERE `id` = %s] selects, if any. *)
Definition sql_key (v : pyval) : option Z :=
  match v with
  | PInt z => Some z
  | PBool b => Some (Z.b2z b)
  | PNone => None
  | _ => sql_cast E v
  end.

Definition set_meta (meta_keywords meta_description : pyval) (r : row) : row :=
  Row (title r) (fulltext r) (introtext r)
      meta_keywords meta_description (state r).

(** [UPDATE `cokw3_content` SET `metakey` = %s, `metadesc` = %s
    WHERE `id` = %s] on a table. *)
Definition sql_update (record_id meta_keywords meta_description : pyval)
    (t : gmap Z row) : gmap Z row :=
  match sql_key record_id with
  | Some k => alter (set_meta meta_keywords meta_description) k t
  | None => t
  end.

(** [update_content_meta(connection, record_id, meta_keywords,
    meta_description)]. The statement is sent once there is a cursor and
    the connector has built it from the parameters. *)
Definition update_content_meta (record_id meta_keywords meta_description : pyval)
  : M bool :=
  λ w,
    if sql_cursor_ok E (trace w)
       && sql_convertible record_id && sql_convertible meta_keywords
       && sql_convertible meta_description
    then
      let w1 := log (EvExecute record_id meta_keywords meta_description) w in
      if sql_execute_ok E (trace w1)
      then
        let t := sql_update record_id meta_keywords meta_description (session w1) in
        let w2 := log EvCommit (World (committed w1) t (trace w1)) in
        if sql_commit_ok E (trace w2)
        then (inr true, World (session w2) (session w2) (trace w2))
        else (inr false, w2)          (* except Error: return False *)
      else (inr false, w1)            (* except Error: return False *)
    else (inr false, w).              (* except Error: return False *)

(** *** The batch *)

(** The result of the batch: a [dict] with these five keys. *)
Record counters := Counters {
  success : nat;
  skipped_empty : nat;
  skipped_api_errors : nat;
  skipped_db_errors : nat;
  skipped_state : nat
}.

Definition count_success (c : counters) : counters :=
  Counters (S (success c)) (skipped_empty c) (skipped_api_errors c)
           (skipped_db_errors c) (skipped_state c).
Definition count_empty (c : counters) : counters :=
  Counters (success c) (S (skipped_empty c)) (skipped_api_errors c)
           (skipped_db_errors c) (skipped_state c).
Definition count_api_error (c : counters) : counters :=
  Counters (success c) (skipped_empty c) (S (skipped_api_errors c))
           (skipped_db_errors c) (skipped_state c).
Definition count_db_error (c : counters) : counters :=
  Counters (success c) (skipped_empty c) (skipped_api_errors c)
           (S (skipped_db_errors c)) (skipped_state c).
Definition count_state (c : counters) : counters :=
  Counters (success c) (skipped_empty c) (skipped_api_errors c)
           (skipped_db_errors c) (S (skipped_state c)).

(** [record[key]] *)
Definition item (r : record) (key : string) : exc pyval :=
  match r !! key with
  | Some v => mret v
  | None => raise KeyError
  end.

(** A lone surrogate: a code point no UTF-8 encoder accepts. *)
Definition is_surrogate (c : N) : bool := ((55296 <=? c) && (c <=? 57343))%N.

(** Can the console encode what [print(f"...{v}")] writes for [v]? A
    string goes out as it is; any other value goes out as its printed
    form, which escapes what cannot be encoded. *)
Definition encodable (v : pyval) : bool :=
  match v with
  | PStr s => forallb (λ c, negb (is_surrogate c)) s
  | _ => true
  end.

(** [print(f"...{v}")] *)
Definition print_value (v : pyval) : exc unit :=
  if encodable v then mret () else raise UnicodeEncodeError.

(** [time.sleep(seconds)] *)
Definition sleep (seconds : Z) : M unit :=
  λ w, (inr (), log (EvSleep seconds) w).

(** One turn of the [for] loop of [process_records] on the [i]-th record
    of [total] ([i] counts from 1). A [continue] ends the turn at once.
    The two [print] calls that open the turn read [record['id']], slice
    [record['title']] and take its length; those of lines 150 and 151
    read the two fields of the metadata and write them out, which fails
    on text the console cannot encode. (What the header writes is the id
    and the title of a row, text the connector has decoded.) *)
Definition loop_body (total i : nat) (r : record) (c : counters) : M counters :=
  record_id ← lift (item r "id");
  title ← lift (item r "title");
  _ ← lift (slice_to 50 title);
  _ ← lift (py_len title);
  if eq_zero (default (PInt 1) (r !! "state")) then
    mret (count_state c)                                   (* continue *)
  else
    clean_content ← lift (get_clean_content r);
    if negb (truthy (PStr clean_content)) || PyStr.eqb (strip clean_content) [] then
      mret (count_empty c)                                 (* continue *)
    else
      meta_data ← generate_meta_with_deepseek title clean_content;
      if negb (truthy meta_data) then
        mret (count_api_error c)                           (* continue *)
      else
        meta_keywords ← lift (getitem_str meta_data (lit "meta_keywords"));
        _ ← lift (print_value meta_keywords);
        meta_description ← lift (getitem_str meta_data (lit "meta_description"));
        _ ← lift (print_value meta_description);
        updated ← update_content_meta record_id meta_keywords meta_description;
        let c' := if (updated : bool) then count_success c else count_db_error c in
        _ ← (if (i <? total)%nat then sleep API_DELAY else mret ());
        mret c'.

(** [for i, record in enumerate(records, 1): ...] from the [i]-th turn on. *)
Fixpoint loop (total i : nat) (records : list record) (c : counters) : M counters :=
  match records with
  | [] => mret c
  | r :: records' =>
      c' ← loop_body total i r c;
      loop total (S i) records' c'
  end.

(** [process_records(db_conn, records)] *)
Definition process_records (records : list record) : M counters :=
  loop (length records) 1 records (Counters 0 0 0 0 0).

End Script.

(** ** Outcomes of one turn of the loop *)

(** The five ways the handling of a record ends. *)
Inductive outcome :=
| Success
| SkippedState
| SkippedEmpty
| SkippedApiErrors
| SkippedDbErrors.

(** The counter an outcome adds one to. *)
Definition tally (o : outcome) (c : counters) : counters :=
  match o with
  | Success => count_success c
  | SkippedState => count_state c
  | SkippedEmpty => count_empty c
  | SkippedApiErrors => count_api_error c
  | SkippedDbErrors => count_db_error c
  end.

Definition total_count (c : counters) : nat :=
  (success c + skipped_empty c + skipped_api_errors c
   + skipped_db_errors c + skipped_state c)%nat.

(** [record.get('state', 1) == 0] *)
Definition unpublished (r : record) : bool :=
  eq_zero (default (PInt 1) (r !! "state")).

(** The test of line 136 on the cleaned text. *)
Definition no_text (clean_content : pystr) : bool :=
  negb (truthy (PStr clean_content)) || PyStr.eqb (strip clean_content) [].

(** The pause that closes a turn which reached the writer. *)
Definition pause (total i : nat) (w : world) : world :=
  if (i <? total)%nat then log (EvSleep API_DELAY) w else w.

(** A turn of the loop that ends without an exception, with what it did
    along the way. *)
Inductive turn (E : environment) (total i : nat) (r : record) (w : world)
  : outcome → world → Prop :=
| turn_state record_id title :
    r !! "id" = Some record_id →
    r !! "title" = Some title →
    returns (slice_to 50 title) = true →
    unpublished r = true →
    turn E total i r w SkippedState w
| turn_empty record_id title clean_content :
    r !! "id" = Some record_id →
    r !! "title" = Some title →
    returns (slice_to 50 title) = true →
    unpublished r = false →
    get_clean_content E r = inr clean_content →
    no_text clean_content = true →
    turn E total i r w SkippedEmpty w
| turn_api record_id title clean_content meta_data w1 :
    r !! "id" = Some record_id →
    r !! "title" = Some title →
    returns (slice_to 50 title) = true →
    unpublished r = false →
    get_clean_content E r = inr clean_content →
    no_text clean_content = false →
    generate_meta_with_deepseek E title clean_content w = (inr meta_data, w1) →
    truthy meta_data = false →
    turn E total i r w SkippedApiErrors w1
| turn_write record_id title clean_content meta_data w1
    meta_keywords meta_description (updated : bool) w2 :
    r !! "id" = Some record_id →
    r !! "title" = Some title →
    returns (slice_to 50 title) = true →
    unpublished r = false →
    get_clean_content E r = inr clean_content →
    no_text clean_content = false →
    generate_meta_with_deepseek E title clean_content w = (inr meta_data, w1) →
    truthy meta_data = true →
    getitem_str meta_data (lit "meta_keywords") = inr meta_keywords →
    encodable meta_keywords = true →
    getitem_str meta_data (lit "meta_description") = inr meta_description →
    encodable meta_description = true →
    update_content_meta E record_id meta_keywords meta_description w1
      = (inr updated, w2) →
    turn E total i r w (if updated then Success else SkippedDbErrors)
         (pause total i w2).

(** ** Rows of the content table *)

(** A text column: a string, or [NULL]. *)
Definition textual (v : option pyval) : bool :=
  match v with
  | Some (PStr _) | Some PNone | None => true
  | _ => false
  end.

(** A record as the table gives it: an integer [id], a [title] that is a
    string, text (or nothing) in the two body columns. *)
Definition content_record (r : record) : bool :=
  match r !! "id", r !! "title" with
  | Some (PInt _), Some (PStr _) =>
      textual (r !! "fulltext") && textual (r !! "introtext")
  | _, _ => false
  end.

(** Both fields of the generated metadata can be read. *)
Definition complete_metadata (v : pyval) : bool :=
  returns (getitem_str v (lit "meta_keywords"))
  && returns (getitem_str v (lit "meta_description")).

(** ** Selection *)

(** The rows of the table as the connection sees them, by ascending [id]. *)
Definition rows_by_id (w : world) : list (Z * row) :=
  merge_sort by_id (map_to_list (session w)).

(** The bound the specification describes: a limit that is provided is
    never exceeded. *)
Definition bounded_by_limit (E : environment) (limit : option Z) (w : world)
  : Prop :=
  ∀ n records w',
    limit = Some n →
    get_content_records E limit w = (inr (Some records), w') →
    Z.of_nat (length records) ≤ n.

(** ** Pacing *)

Definition is_sleep (e : event) : bool :=
  match e with
  | EvSleep _ => true
  | _ => false
  end.

(** How often the script has slept. *)
Definition sleeps (t : list event) : nat := length (List.filter is_sleep t).


(** ** The entry point *)

Section Entry.

Context (E : environment).

(** [get_db_connection()]: the connection, or [None] when
    [mysql.connector.connect] raises [Error]. Whether the server takes
    the connection is [reachable]. The tables the connection works on are
    those of the world. *)
Definition get_db_connection (reachable : bool) : option unit :=
  if reachable then Some () else None.

(** What has become of the connection when [main] is left. *)
Inductive connection :=
| NeverOpened
| Closed.

(** The ways [main] ends: the [return] of line 180, the [return] of line
    186, and the end of the function after the summary, which prints the
    five counters and [total]. *)
Inductive main_exit :=
| NoConnection
| NoRecords
| Reported (total : nat) (result : counters).

(** The [try] block of [main], for the record limit [limit]. [if not
    records] holds for [None] and for the empty list. *)
Definition main_try (limit : option Z) : M main_exit :=
  records ← get_content_records E limit;
  match records with
  | None | Some [] => mret NoRecords
  | Some records =>
      let total := length records in
      result ← process_records E records;
      mret (Reported total result)
  end.

(** [main()] with [RECORDS_LIMIT] set to [limit]. The [finally] closes
    the connection on every way out of the [try], an exception included. *)
Definition main_with (limit : option Z) (reachable : bool) (w : world)
  : exc main_exit * world * connection :=
  match get_db_connection reachable with
  | None => (inr NoConnection, w, NeverOpened)
  | Some _ =>
      let (res, w') := main_try limit w in
      (res, w', Closed)
  end.

(** [main()] *)
Definition main : bool → world → exc main_exit * world * connection :=
  main_with RECORDS_LIMIT.

End Entry.

(** ** Counting calls *)

Definition is_post (e : event) : bool :=
  match e with
  | EvPost _ _ => true
  | _ => false
  end.

Definition is_execute (e : event) : bool :=
  match e with
  | EvExecute _ _ _ => true
  | _ => false
  end.

Definition is_commit (e : event) : bool :=
  match e with
  | EvCommit => true
  | _ => false
  end.

(** Requests sent, [UPDATE] statements sent, commits asked for. *)
Definition posts (t : list event) : nat := length (List.filter is_post t).
Definition executes (t : list event) : nat := length (List.filter is_execute t).
Definition commits (t : list event) : nat := length (List.filter is_commit t).

(** May [e] come right after [prev] ([None]: nothing came before)? An
    [UPDATE] follows a request, a commit follows an [UPDATE], a sleep
    follows a request, an [UPDATE] or a commit, and the query comes
    first. *)
Definition follows (prev : option event) (e : event) : bool :=
  match e with
  | EvQuery _ =>
      match prev with None => true | _ => false end
  | EvPost _ _ => true
  | EvExecute _ _ _ =>
      match prev with Some (EvPost _ _) => true | _ => false end
  | EvCommit =>
      match prev with Some (EvExecute _ _ _) => true | _ => false end
  | EvSleep _ =>
      match prev with
      | Some (EvPost _ _) | Some (EvExecute _ _ _) | Some EvCommit => true
      | _ => false
      end
  end.

(** Every call of [t] may come where it comes, [prev] being the call
    before [t]. *)
Fixpoint in_order (prev : option event) (t : list event) : bool :=
  match t with
  | [] => true
  | e :: t' => follows prev e && in_order (Some e) t'
  end.

(** Calls that may come after anything, since they are none or begin with
    a request. *)
Definition self_contained (t : list event) : Prop :=
  ∀ prev, in_order prev t = true.

(** The records that went to the generator, and those that went on to
    the writer. *)
Definition generated (c : counters) : nat :=
  (success c + skipped_api_errors c + skipped_db_errors c)%nat.
Definition written (c : counters) : nat :=
  (success c + skipped_db_errors c)%nat.

(** ** What the script leaves alone *)

(** Two versions of a row that differ at most in [metakey] and
    [metadesc]. *)
Definition same_article (a b : row) : Prop :=
  title a = title b ∧ fulltext a = fulltext b
  ∧ introtext a = introtext b ∧ state a = state b.

(** Two versions of the table with the same rows, each with the same
    article. *)
Definition same_content (t t' : gmap Z row) : Prop :=
  ∀ k, option_Forall2 same_article (t !! k) (t' !! k).

(** The columns the script reads are typed as the schema has them: the
    title is a string, the bodies are strings or [NULL]. *)
Definition typed_row (r : row) : bool :=
  match title r with
  | PStr _ => textual (Some (fulltext r)) && textual (Some (introtext r))
  | _ => false
  end.

(** ** A generator that keeps its contract *)

(** Both fields of the metadata can be read and written to the console. *)
Definition usable_metadata (v : pyval) : bool :=
  match getitem_str v (lit "meta_keywords"),
        getitem_str v (lit "meta_description") with
  | inr meta_keywords, inr meta_description =>
      encodable meta_keywords && encodable meta_description
  | _, _ => false
  end.

(** Whatever the generator returns is [None], or falsy, or metadata with
    its two fields, both fit for the console. *)
Definition sound_generator (E : environment) : Prop :=
  ∀ title content w v w1,
    generate_meta_with_deepseek E title content w = (inr v, w1) →
    truthy v = true → usable_metadata v = true.

(** The parser accepts the markup [get_clean_content] hands to it. *)
Definition markup_accepted (E : environment) (r : record) : bool :=
  match chosen_body r with
  | PStr s => bool_decide (is_Some (soup_get_text E s))
  | _ => true
  end.

(** ** What a query fetches *)

(** The rows behind the records of a query that succeeded. *)
Definition fetched (limit : option Z) (w : world) : list (Z * row) :=
  match limit_clause limit with
  | None => rows_by_id w
  | Some n => take (Z.to_nat n) (rows_by_id w)
  end.

(** ** Concrete worlds *)

Module Demo.

Definition dq : pystr := [34%N].
Definition quoted (s : string) : pystr := dq ++ lit s ++ dq.

(** A string as it appears inside a JSON string: quotes and backslashes
    escaped. *)
Fixpoint escape (s : pystr) : pystr :=
  match s with
  | [] => []
  | c :: s' =>
      if ((c =? 34) || (c =? 92))%N then 92%N :: c :: escape s'
      else c :: escape s'
  end.

(** The text of a chat completion whose first choice carries [content],
    and the value [json.loads] builds from it. *)
Definition completion_text (content : pystr) : pystr :=
  lit "{" ++ quoted "choices" ++ lit ": [{" ++ quoted "message" ++ lit ": {"
  ++ quoted "content" ++ lit ": " ++ dq ++ escape content ++ dq ++ lit "}}]}".

Definition completion (content : pystr) : pyval :=
  PDict [(lit "choices",
          PList [PDict [(lit "message",
                         PDict [(lit "content", PStr content)])]])].

(** [{"meta_keywords": "rome, city", "meta_description": "Discover Rome today."}] *)
Definition rome_meta_text : pystr :=
  lit "{" ++ quoted "meta_keywords" ++ lit ": " ++ quoted "rome, city"
  ++ lit ", " ++ quoted "meta_description" ++ lit ": "
  ++ quoted "Discover Rome today." ++ lit "}".

Definition rome_meta : pyval :=
  PDict [(lit "meta_keywords", PStr (lit "rome, city"));
         (lit "meta_description", PStr (lit "Discover Rome today."))].

(** [{"foo": "bar"}] *)
Definition foo_text : pystr :=
  lit "{" ++ quoted "foo" ++ lit ": " ++ quoted "bar" ++ lit "}".

Definition foo : pyval := PDict [(lit "foo", PStr (lit "bar"))].

(** [{}] *)
Definition empty_text : pystr := lit "{}".

(** [json.loads] on the texts above; any other text is refused. *)
Definition json_texts : list (pystr * pyval) :=
  [ (rome_meta_text, rome_meta);
    (foo_text, foo);
    (empty_text, PDict []);
    (completion_text rome_meta_text, completion rome_meta_text);
    (completion_text foo_text, completion foo_text);
    (completion_text empty_text, completion empty_text) ].

(** The text nodes of simple markup: what stands outside the tags. *)
Fixpoint text_nodes (in_tag : bool) (s : pystr) : pystr :=
  match s with
  | [] => []
  | c :: s' =>
      if (c =? 60)%N then text_nodes true s'
      else if (c =? 62)%N then text_nodes false s'
      else if in_tag then text_nodes in_tag s'
      else c :: text_nodes in_tag s'
  end.

Definition is_letter (c : N) : bool :=
  ((65 <=? c) && (c <=? 90) || (97 <=? c) && (c <=? 122))%N.

Definition is_name_char (c : N) : bool :=
  (is_letter c || (48 <=? c) && (c <=? 57)
   || (c =? 45) || (c =? 95) || (c =? 46))%N.

Definition lower (c : N) : N :=
  if ((65 <=? c) && (c <=? 90))%N then (c + 32)%N else c.

(** The name a marked section opens with, in lower case. *)
Fixpoint scan_name (s : pystr) : pystr :=
  match s with
  | c :: s' => if is_name_char c then lower c :: scan_name s' else []
  | [] => []
  end.

Definition section_keywords : list pystr :=
  lit <$> ["temp"; "cdata"; "ignore"; "include"; "rcdata";
           "if"; "else"; "endif"]%string.

(** What follows [<![] names a marked section [html.parser] knows. *)
Definition known_section (s : pystr) : bool :=
  match s with
  | [] => true
  | c :: _ => is_letter c && existsb (PyStr.eqb (scan_name s)) section_keywords
  end.

(** [html.parser] gives up on a marked section it does not know, as in
    [<![foo bar]>], and BeautifulSoup raises [ParserRejectedMarkup]. *)
Fixpoint accepted (s : pystr) : bool :=
  match s with
  | [] => true
  | _ :: s' =>
      (if starts_with (lit "<![") s then known_section (drop 3 s) else true)
      && accepted s'
  end.

(** A stand-in for the parser on simple markup. *)
Definition get_text (s : pystr) : option pystr :=
  if accepted s then Some (text_nodes false s) else None.

(** A world in which every request gets [answer], the storage accepts
    what [writes] says and the connection always gives a cursor. *)
Definition env (answer : http_outcome) (writes : bool) : environment :=
  Environment (λ s, dict_get s json_texts) get_text
              (λ _, answer) (λ _, writes) (λ _, writes) (λ _, None)
              (λ _, true).

Definition article (id : Z) (title body : string) (state : Z) : row :=
  Row (PStr (lit title)) (PStr (lit body)) (PStr []) (PStr []) (PStr [])
      (PInt state).

Definition rome : row := article 1 "Rome" "<p>Rome is a city.</p>" 1.
Definition draft : row := article 2 "Draft" "<p>Not yet.</p>" 0.
Definition blank_page : row := article 3 "Blank" "<p>  </p>" 1.
Definition odd_markup : row := article 4 "Odd" "<![foo bar]>" 1.

Definition table : gmap Z row := {[ 1 := rome; 2 := draft; 3 := blank_page ]}.

Definition start : world := World table table [].

End Demo.

(** ** Basic facts *)

Ltac unfold_M :=
  unfold mbind, M_bind, exc_bind, mret, M_ret, exc_ret, lift, raise in *.

Lemma tally_total o c : total_count (tally o c) = S (total_count c).
Proof. destruct o, c; unfold total_count; simpl; lia. Qed.

Lemma tally_inj o1 o2 c : tally o1 c = tally o2 c → o1 = o2.
Proof.
  destruct c, o1, o2; unfold tally, count_success, count_state, count_empty,
    count_api_error, count_db_error; simpl; intros H;
    try reflexivity; inversion H; lia.
Qed.

Lemma slice_len_title title :
  returns (slice_to 50 title) = true → returns (py_len title) = true.
Proof. destruct title; simpl; congruence. Qed.

(** *** One turn, case by case *)

Lemma loop_body_turn E total i r c w c' w' :
  loop_body E total i r c w = (inr c', w') →
  ∃ o, turn E total i r w o w' ∧ c' = tally o c.
Proof.
  unfold loop_body, item. unfold_M.
  destruct (r !! "id") as [rid|] eqn:Hid; [|discriminate].
  destruct (r !! "title") as [t|] eqn:Ht; [|discriminate].
  destruct (slice_to 50 t) eqn:Hs; [discriminate|].
  destruct (py_len t) eqn:Hl; [discriminate|].
  assert (Hsl : returns (slice_to 50 t) = true) by (by rewrite Hs).
  destruct (eq_zero _) eqn:Hst.
  { intros [= <- <-]. exists SkippedState. split; [|done].
    by eapply turn_state. }
  destruct (get_clean_content E r) as [|clean] eqn:Hc; [discriminate|].
  destruct (negb (truthy (PStr clean)) || _) eqn:Hnt.
  { intros [= <- <-]. exists SkippedEmpty. split; [|done].
    by eapply turn_empty. }
  destruct (generate_meta_with_deepseek E t clean w) as [[|meta] w1] eqn:Hg;
    [discriminate|].
  destruct (truthy meta) eqn:Hm; simpl.
  2:{ intros [= <- <-]. exists SkippedApiErrors. split; [|done].
      by eapply turn_api. }
  destruct (getitem_str meta (lit "meta_keywords")) as [|kw] eqn:Hk;
    [discriminate|].
  unfold print_value.
  destruct (encodable kw) eqn:Hpk; [|discriminate].
  destruct (getitem_str meta (lit "meta_description")) as [|desc] eqn:Hd;
    [discriminate|].
  destruct (encodable desc) eqn:Hpd; [|discriminate].
  destruct (update_content_meta E rid kw desc w1) as [[|b] w2] eqn:Hu;
    [discriminate|].
  intros Hres.
  assert (c' = (if b then count_success c else count_db_error c)
          ∧ w' = pause total i w2) as [-> ->].
  { unfold pause, sleep in *. destruct (i <? total)%nat; by inversion Hres. }
  exists (if b then Success else SkippedDbErrors). split.
  - by eapply turn_write.
  - by destruct b.
Qed.

Lemma turn_loop_body E total i r c w o w' :
  turn E total i r w o w' →
  loop_body E total i r c w = (inr (tally o c), w').
Proof.
  intros Ht. unfold loop_body, item.
  destruct Ht as [rid t Hid Ht Hs Hst
                 |rid t clean Hid Ht Hs Hst Hc Hnt
                 |rid t clean meta w1 Hid Ht Hs Hst Hc Hnt Hg Hm
                 |rid t clean meta w1 kw desc b w2
                    Hid Ht Hs Hst Hc Hnt Hg Hm Hk Hpk Hd Hpd Hu];
    pose proof (slice_len_title _ Hs) as Hl;
    unfold unpublished, no_text in *; unfold_M;
    rewrite Hid, Ht;
    destruct (slice_to 50 t); try discriminate;
    destruct (py_len t); try discriminate;
    rewrite Hst; try done;
    rewrite Hc, Hnt; try done;
    rewrite Hg, Hm; simpl; try done.
  unfold print_value. rewrite Hk, Hpk, Hd, Hpd, Hu. unfold pause, sleep.
  by destruct b, (i <? total)%nat.
Qed.

(** The outcome of a turn is determined by the record and the world. *)
Lemma turn_deterministic E total i r w o1 w1 o2 w2 :
  turn E total i r w o1 w1 → turn E total i r w o2 w2 → o1 = o2 ∧ w1 = w2.
Proof.
  intros H1 H2.
  apply (turn_loop_body E total i r (Counters 0 0 0 0 0)) in H1, H2.
  rewrite H1 in H2. inversion H2 as [[Ht Hw]]. split; [|done].
  by eapply tally_inj.
Qed.

(** *** The generator and the writer return *)

Lemma generate_returns E title content w :
  ∃ v, generate_meta_with_deepseek E title content w
       = (inr v, log (EvPost title content) w).
Proof.
  unfold generate_meta_with_deepseek.
  destruct (read_completion E _) as [|[v|]]; eauto.
Qed.

Lemma update_returns E record_id meta_keywords meta_description w :
  ∃ b w', update_content_meta E record_id meta_keywords meta_description w
          = (inr b, w').
Proof.
  unfold update_content_meta.
  destruct (_ && sql_convertible meta_description);
    [destruct (sql_execute_ok _ _); [destruct (sql_commit_ok _ _)|]|]; eauto.
Qed.

(** *** The loop *)

Lemma loop_total_count E total records : ∀ i c w c' w',
  loop E total i records c w = (inr c', w') →
  total_count c' = (total_count c + length records)%nat.
Proof.
  induction records as [|r records IH]; intros i c w c' w'; simpl.
  - unfold_M. intros [= <- <-]. lia.
  - unfold_M.
    destruct (loop_body E total i r c w) as [[e|c1] w1] eqn:Hb; [discriminate|].
    intros Hl. apply IH in Hl.
    apply loop_body_turn in Hb as (o & _ & ->).
    rewrite tally_total in Hl. lia.
Qed.

(** A batch that comes to its end has counted every record once. *)
Lemma process_records_total_count E records w c w' :
  process_records E records w = (inr c, w') →
  total_count c = length records.
Proof.
  unfold process_records. intros H. by apply loop_total_count in H.
Qed.

(** *** Strings *)

Lemma lstrip_head s c : head (lstrip s) = Some c → is_space c = false.
Proof.
  induction s as [|a s IH]; simpl; [done|].
  destruct (is_space a) eqn:Ha; [done|].
  simpl. by intros [= <-].
Qed.

Lemma lstrip_last s : lstrip s ≠ [] → last (lstrip s) = last s.
Proof.
  induction s as [|a s IH]; simpl; [done|].
  destruct (is_space a) eqn:Ha; [|done].
  intros Hne. rewrite IH by done.
  destruct s as [|b s]; [done|]. by rewrite last_cons_cons.
Qed.

Lemma lstrip_blank s : blank s = true → lstrip s = [].
Proof.
  induction s as [|a s IH]; simpl; [done|].
  intros [Ha Hs]%andb_true_iff. rewrite Ha. auto.
Qed.

Lemma blank_lstrip s : lstrip s = [] → blank s = true.
Proof.
  induction s as [|a s IH]; simpl; [done|].
  destruct (is_space a); [auto|done].
Qed.

Lemma blank_reverse s : blank (reverse s) = blank s.
Proof.
  unfold blank. induction s as [|a s IH]; [done|].
  rewrite reverse_cons, forallb_app, IH. simpl.
  rewrite andb_true_r. apply andb_comm.
Qed.

Lemma strip_trimmed s : trimmed (strip s).
Proof.
  unfold trimmed, strip, rstrip. split; intros c.
  - rewrite head_reverse. intros Hl.
    assert (Hne : lstrip (reverse (lstrip s)) ≠ []) by (by intros Heq; rewrite Heq in Hl).
    rewrite (lstrip_last _ Hne), last_reverse in Hl.
    by apply lstrip_head in Hl.
  - rewrite last_reverse. apply lstrip_head.
Qed.

Lemma strip_blank s : blank s = true → strip s = [].
Proof.
  intros Hb. unfold strip, rstrip. by rewrite (lstrip_blank s Hb).
Qed.

Lemma strip_empty_blank s : strip s = [] → blank s = true.
Proof.
  unfold strip, rstrip. intros H.
  apply (f_equal reverse) in H. rewrite reverse_involutive, reverse_nil in H.
  apply blank_lstrip in H. rewrite blank_reverse in H.
  clear -H. induction s as [|a s IH]; simpl in *; [done|].
  destruct (is_space a) eqn:Ha; [auto|]. simpl in H. by rewrite Ha in H.
Qed.

(** A text without characters other than whitespace is what line 136
    rejects. *)
Lemma no_text_blank s : no_text s = true ↔ blank s = true.
Proof.
  unfold no_text, truthy, PyStr.eqb. split.
  - intros [H|H]%orb_true_iff.
    + rewrite negb_involutive in H. apply bool_decide_eq_true in H. by subst.
    + apply bool_decide_eq_true in H. by apply strip_empty_blank.
  - intros H%strip_blank. apply orb_true_iff. right.
    by apply bool_decide_eq_true.
Qed.

(** *** The calls of the generator and of the writer *)

Lemma generate_world E title content w v w1 :
  generate_meta_with_deepseek E title content w = (inr v, w1) →
  w1 = log (EvPost title content) w.
Proof.
  destruct (generate_returns E title content w) as [v' Hv].
  rewrite Hv. by intros [= _ <-].
Qed.

Lemma update_trace E record_id meta_keywords meta_description w b w' :
  update_content_meta E record_id meta_keywords meta_description w = (inr b, w') →
  let call := EvExecute record_id meta_keywords meta_description in
  ∃ evs, trace w' = trace w ++ evs
         ∧ (evs = [] ∨ evs = [call] ∨ evs = [call; EvCommit])
         ∧ (b = true → evs = [call; EvCommit]).
Proof.
  unfold update_content_meta.
  destruct (_ && sql_convertible meta_description);
    [destruct (sql_execute_ok _ _); [destruct (sql_commit_ok _ _)|]|];
    intros [= <- <-]; simpl.
  - eexists [_; _]. rewrite <- app_assoc. auto.
  - eexists [_; _]. rewrite <- app_assoc. split; [done|]. split; [auto|done].
  - eexists [_]. split; [done|]. split; [auto|done].
  - exists []. rewrite app_nil_r. split; [done|]. split; [auto|done].
Qed.

Lemma sleeps_app t1 t2 : sleeps (t1 ++ t2) = (sleeps t1 + sleeps t2)%nat.
Proof. unfold sleeps. by rewrite List.filter_app, length_app. Qed.


(** ** Pacing of the batch *)




(** ** The generator at its boundary *)


Lemma read_completion_connection_failure E :
  read_completion E ConnectionFailure = inl RequestException.
Proof. done. Qed.

Lemma read_completion_error_status E status body :
  400 ≤ status < 600 →
  read_completion E (Response status body) = inl HTTPError.
Proof.
  intros [H1 H2]. unfold read_completion, raise_for_status.
  apply Z.leb_le in H1. apply Z.ltb_lt in H2. by rewrite H1, H2.
Qed.

Lemma read_completion_body_not_json E status body :
  json_loads E body = None →
  ∃ e, read_completion E (Response status body) = inl e.
Proof.
  intros Hb. unfold read_completion, raise_for_status, loads. rewrite Hb.
  destruct (_ && _); simpl; eauto.
Qed.

(** A body without [choices], or with an empty list of them: the [if] is
    not entered and the function falls through to [return None]. *)
Lemma read_completion_no_choices E status body d :
  json_loads E body = Some (PDict d) →
  dict_get (lit "choices") d = None
  ∨ dict_get (lit "choices") d = Some (PList []) →
  read_completion E (Response status body) = inl HTTPError
  ∨ read_completion E (Response status body) = inr None.
Proof.
  intros Hb Hd. unfold read_completion, raise_for_status, loads. rewrite Hb.
  destruct (_ && _); simpl; [by left|right].
  by destruct Hd as [Hd|Hd]; rewrite Hd.
Qed.

(** The text of the first choice does not parse. *)
Lemma read_completion_payload_not_json E status body d first others message s :
  json_loads E body = Some (PDict d) →
  dict_get (lit "choices") d = Some (PList (PDict first :: others)) →
  dict_get (lit "message") first = Some (PDict message) →
  dict_get (lit "content") message = Some (PStr s) →
  json_loads E (strip (replace fence [] (replace fence_json [] s))) = None →
  ∃ e, read_completion E (Response status body) = inl e.
Proof.
  intros Hb Hd Hf Hm Hs. unfold read_completion, raise_for_status, loads.
  rewrite Hb. destruct (_ && _); simpl; [eauto|].
  rewrite Hd. simpl. rewrite Hf. simpl. rewrite Hm. simpl. rewrite Hs. eauto.
Qed.

(** What the generator hands back is [None] or a value [json.loads] built. *)
Lemma generate_result E title content w v w1 :
  generate_meta_with_deepseek E title content w = (inr v, w1) →
  v = PNone ∨ ∃ s, json_loads E s = Some v.
Proof.
  unfold generate_meta_with_deepseek.
  destruct (read_completion E _) as [e|[v'|]] eqn:Hr;
    intros [= <- <-]; auto.
  right. revert Hr. unfold read_completion.
  destruct (http_post E _) as [|status body]; [done|].
  unfold_M.
  destruct (raise_for_status status); [done|].
  destruct (loads E body) as [|result]; [done|].
  destruct (contains_str _ result) as [|[]]; try done.
  destruct (getitem_str result _) as [|choices]; [done|].
  destruct (py_len choices) as [|n]; [done|].
  destruct (0 <? n)%nat; [|done].
  destruct (getitem_0 choices) as [|first]; [done|].
  destruct (getitem_str first _) as [|message]; [done|].
  destruct (getitem_str message _) as [|c]; [done|].
  destruct (strip_fences c) as [|s]; [done|].
  unfold loads. destruct (json_loads E s) eqn:Hs; [|done].
  intros [= <-]. eauto.
Qed.

(** C3 at its failing input: the completion carries the object
    [{"foo": "bar"}]. The generator hands it to the batch as it is,
    although it is neither [None] nor metadata: reading [meta_keywords]
    from it raises. *)
Theorem generator_returns_incomplete_metadata :
  let E := Demo.env (Response 200 (Demo.completion_text Demo.foo_text)) true in
  generate_meta_with_deepseek E (PStr (lit "Rome")) (lit "Rome is a city.")
                              Demo.start
  = (inr Demo.foo,
     log (EvPost (PStr (lit "Rome")) (lit "Rome is a city.")) Demo.start)
  ∧ truthy Demo.foo = true
  ∧ complete_metadata Demo.foo = false
  ∧ getitem_str Demo.foo (lit "meta_keywords") = inl KeyError.
Proof. by vm_compute. Qed.

(** ** A batch that stops *)

Lemma clean_html_text_returns E v :
  textual (Some v) = true →
  (∀ s, v = PStr s → is_Some (soup_get_text E s)) →
  ∃ t, clean_html_text E v = inr t.
Proof.
  destruct v as [| | | |s| |]; try done; unfold clean_html_text; simpl; eauto.
  intros _ Hs. destruct (negb _); [eauto|].
  destruct (Hs s eq_refl) as [t ->]. eauto.
Qed.

Lemma get_or_empty_textual (r : record) key :
  textual (r !! key) = true → textual (Some (get_or_empty r key)) = true.
Proof. unfold get_or_empty. by destruct (r !! key) as [[]|]. Qed.

Lemma get_clean_content_returns E r :
  content_record r = true →
  markup_accepted E r = true →
  ∃ t, get_clean_content E r = inr t.
Proof.
  unfold content_record, get_clean_content, markup_accepted.
  destruct (r !! "id") as [[]|]; try done.
  destruct (r !! "title") as [[]|]; try done.
  intros [Hf Hi]%andb_true_iff Hacc.
  apply clean_html_text_returns.
  - unfold chosen_body. destruct (_ || _); by apply get_or_empty_textual.
  - intros body Hs. rewrite Hs in Hacc. by apply bool_decide_eq_true in Hacc.
Qed.

(** C2 at its failing input: the first of two records gets the object
    [{"foo": "bar"}] for metadata. The batch ends in a [KeyError] after
    the request for the first record: no result is returned, and neither
    record has an outcome. *)
Theorem batch_aborts_on_incomplete_metadata :
  let E := Demo.env (Response 200 (Demo.completion_text Demo.foo_text)) true in
  let w' := log (EvPost (PStr (lit "Rome")) (lit "Rome is a city.")) Demo.start in
  process_records E [fetch_row (1, Demo.rome); fetch_row (2, Demo.draft)]
                  Demo.start
  = (inl KeyError, w').
Proof. by vm_compute. Qed.

(** ** The skip rules *)




Lemma chosen_body_fulltext (r : record) s :
  r !! "fulltext" = Some (PStr s) → strip s ≠ [] → chosen_body r = PStr s.
Proof.
  intros Hf Hs. unfold chosen_body, get_or_empty. rewrite Hf. simpl.
  assert (Hne : s ≠ []) by (by intros ->).
  unfold PyStr.eqb. by rewrite !bool_decide_eq_false_2.
Qed.




(** ** The writer *)





(** ** A record that reaches the writer *)



(** ** The extractor *)

(** What [clean_html_text] does by itself: the empty string for [None]
    and for the empty string, the trimmed text when the parser returns
    one, the parser's exception when it raises. *)
Lemma clean_html_text_cases E :
  clean_html_text E PNone = inr []
  ∧ clean_html_text E (PStr []) = inr []
  ∧ ∀ s, s ≠ [] →
      clean_html_text E (PStr s)
      = match soup_get_text E s with
        | Some text => inr (strip text)
        | None => inl ParserRejectedMarkup
        end.
Proof.
  repeat split. intros s Hs. unfold clean_html_text.
  destruct s; [done|]. simpl. by destruct (soup_get_text E _).
Qed.

(** C8 at its failing input: the markup [<![foo bar]>] opens a marked
    section the parser does not know. The parser raises, nothing in
    [clean_html_text] catches it, and a batch that holds a record with
    this body ends in the exception. *)
Theorem clean_html_text_raises_on_rejected_markup :
  let E := Demo.env ConnectionFailure true in
  soup_get_text E (lit "<![foo bar]>") = None
  ∧ clean_html_text E (PStr (lit "<![foo bar]>")) = inl ParserRejectedMarkup
  ∧ process_records E [fetch_row (4, Demo.odd_markup)] Demo.start
    = (inl ParserRejectedMarkup, Demo.start).
Proof. by vm_compute. Qed.

(** ** The selector *)

#[local] Instance by_id_total : Total by_id.
Proof. intros a b. unfold by_id. lia. Qed.

#[local] Instance by_id_trans : Transitive by_id.
Proof. intros a b c. unfold by_id. lia. Qed.

Lemma rows_by_id_sorted w : StronglySorted Z.le (rows_by_id w).*1.
Proof.
  unfold rows_by_id. eapply StronglySorted_fmap; [|apply StronglySorted_merge_sort; apply _].
  by intros x y.
Qed.

Lemma rows_by_id_all w : rows_by_id w ≡ₚ map_to_list (session w).
Proof. apply merge_sort_Permutation. Qed.

Lemma StronglySorted_take {A} (R : relation A) n l :
  StronglySorted R l → StronglySorted R (take n l).
Proof.
  intros Hl. rewrite <- (take_drop n l) in Hl.
  by apply StronglySorted_app_1_l in Hl.
Qed.

Lemma limit_clause_spec limit :
  limit_clause limit
  = match limit with
    | Some n => if decide (n = 0) then None else Some n
    | None => None
    end.
Proof.
  destruct limit as [n|]; [|done]. simpl.
  case_decide as Hn; [by subst|]. by apply Z.eqb_neq in Hn as ->.
Qed.

(** C9, as the code has it: the selector returns [None] when there is no
    cursor, and then no query is sent, or when the server refuses the
    query, which it does for a negative limit. Otherwise the
    records come by ascending [id]: all rows of the table when the limit
    is [None] or 0, the first [limit] of them, so at most [limit], when
    the limit is positive. *)
Theorem get_content_records_limit E limit w :
  let sent := log (EvQuery (limit_clause limit)) w in
  ∃ res, get_content_records E limit w
         = (inr res, if sql_cursor_ok E (trace w) then sent else w)
    ∧ (res = None ↔
       sql_cursor_ok E (trace w) = false
       ∨ sql_execute_ok E (trace sent) = false
       ∨ ∃ n, limit = Some n ∧ n < 0)
    ∧ ∀ records, res = Some records →
        ∃ rows, records = fetch_row <$> rows
          ∧ StronglySorted Z.le rows.*1
          ∧ rows ⊆+ map_to_list (session w)
          ∧ (limit = None ∨ limit = Some 0 →
             rows ≡ₚ map_to_list (session w))
          ∧ (∀ n, limit = Some n → 0 < n →
             rows = take (Z.to_nat n) (rows_by_id w)
             ∧ Z.of_nat (length records) ≤ n).
Proof.
  intros w'. unfold get_content_records. fold w'.
  change (merge_sort by_id (map_to_list (session w'))) with (rows_by_id w).
  destruct (sql_cursor_ok E (trace w)) eqn:Hcur.
  2:{ exists None. split; [done|]. split; [|done]. split; auto. }
  subst w'. rewrite limit_clause_spec.
  set (w' := log (EvQuery _) w).
  destruct (sql_execute_ok E (trace w')) eqn:Hok.
  2:{ exists None. split; [done|]. split; [|done]. split; auto. }
  destruct limit as [n|]; simpl.
  - case_decide as Hn; simpl.
    + subst n. exists (Some (fetch_row <$> rows_by_id w)). split; [done|].
      split. { split; [done|]. intros [?|[?|(n & [= <-] & ?)]]; [done..|lia]. }
      intros records [= <-]. exists (rows_by_id w).
      split; [done|]. split; [apply rows_by_id_sorted|].
      split; [by rewrite rows_by_id_all|].
      split; [intros _; apply rows_by_id_all|].
      intros n [= <-]. lia.
    + destruct (n <? 0) eqn:Hneg.
      * apply Z.ltb_lt in Hneg. exists None. split; [done|].
        split; [|done]. split; eauto 6.
      * apply Z.ltb_ge in Hneg.
        exists (Some (fetch_row <$> take (Z.to_nat n) (rows_by_id w))).
        split; [done|].
        split. { split; [done|]. intros [?|[?|(m & [= <-] & ?)]]; [done..|lia]. }
        intros records [= <-]. exists (take (Z.to_nat n) (rows_by_id w)).
        split; [done|].
        split. { rewrite fmap_take. apply StronglySorted_take, rows_by_id_sorted. }
        split. { rewrite <- rows_by_id_all. apply submseteq_take. }
        split. { intros [?|[= ?]]; [done|lia]. }
        intros m [= <-] Hm. split; [done|].
        rewrite length_fmap, length_take. lia.
  - exists (Some (fetch_row <$> rows_by_id w)). split; [done|].
    split. { split; [done|]. intros [?|[?|(n & ? & ?)]]; done. }
    intros records [= <-]. exists (rows_by_id w).
    split; [done|]. split; [apply rows_by_id_sorted|].
    split; [by rewrite rows_by_id_all|].
    split; [intros _; apply rows_by_id_all|].
    by intros n.
Qed.

Lemma get_content_records_limit_witness :
  ∃ records,
    get_content_records (Demo.env ConnectionFailure true) RECORDS_LIMIT Demo.start
    = (inr (Some records), log (EvQuery (Some 2)) Demo.start)
    ∧ Z.of_nat (length records) ≤ 2.
Proof.
  destruct (get_content_records_limit (Demo.env ConnectionFailure true)
              RECORDS_LIMIT Demo.start) as (res & Hg & Hnone & Hrec).
  destruct res as [records|].
  - exists records. split; [done|].
    destruct (Hrec records eq_refl) as (rows & _ & _ & _ & _ & Hn).
    by destruct (Hn 2 eq_refl eq_refl).
  - destruct (proj1 Hnone eq_refl) as [?|[?|(n & [= <-] & ?)]]; done.
Defined.

(** C9, as the specification words it, fails: a limit of 0 is provided,
    and the three rows of the table are returned. *)
Lemma limit_zero_fetches_all :
  ¬ bounded_by_limit (Demo.env ConnectionFailure true) (Some 0) Demo.start.
Proof.
  intros H. specialize (H 0 _ _ eq_refl eq_refl). vm_compute in H. by apply H.
Qed.

(** ** Metadata that parses to a falsy value *)




(** ** Further properties of the script *)

(** *** What one turn does to the world, whatever its end *)

Lemma loop_body_effect E total i r c w res w' :
  loop_body E total i r c w = (res, w') →
  w' = w
  ∨ (∃ title clean_content, w' = log (EvPost title clean_content) w)
  ∨ (∃ title clean_content record_id meta_keywords meta_description
       (updated : bool) w2,
       r !! "id" = Some record_id
       ∧ update_content_meta E record_id meta_keywords meta_description
           (log (EvPost title clean_content) w) = (inr updated, w2)
       ∧ w' = pause total i w2
       ∧ res = inr (if updated then count_success c else count_db_error c)).
Proof.
  unfold loop_body, item, print_value. unfold_M.
  destruct (r !! "id") as [rid|] eqn:Hid; [|intros [= <- <-]; auto].
  destruct (r !! "title") as [t|] eqn:Ht; [|intros [= <- <-]; auto].
  destruct (slice_to 50 t); [intros [= <- <-]; auto|].
  destruct (py_len t); [intros [= <- <-]; auto|].
  destruct (eq_zero _); [intros [= <- <-]; auto|].
  destruct (get_clean_content E r) as [|clean]; [intros [= <- <-]; auto|].
  destruct (negb (truthy (PStr clean)) || _); [intros [= <- <-]; auto|].
  destruct (generate_meta_with_deepseek E t clean w) as [[|meta] w1] eqn:Hg.
  { destruct (generate_returns E t clean w) as [v Hv]. congruence. }
  apply generate_world in Hg as ->.
  destruct (truthy meta); simpl; [|intros [= <- <-]; eauto].
  destruct (getitem_str meta (lit "meta_keywords")) as [|kw];
    [intros [= <- <-]; eauto|].
  destruct (encodable kw); [|intros [= <- <-]; eauto].
  destruct (getitem_str meta (lit "meta_description")) as [|desc];
    [intros [= <- <-]; eauto|].
  destruct (encodable desc); [|intros [= <- <-]; eauto].
  destruct (update_content_meta E rid kw desc _) as [[e|b] w2] eqn:Hu.
  { destruct (update_returns E rid kw desc (log (EvPost t clean) w))
      as (b & w3 & Hb). congruence. }
  intros Hres. right. right. exists t, clean, rid, kw, desc, b, w2.
  split; [done|]. split; [done|].
  unfold pause, sleep in *. destruct (i <? total)%nat; by inversion Hres.
Qed.

(** *** Calls and counters *)

Ltac count_calls :=
  unfold posts, executes, commits, sleeps, generated, written, total_count;
  rewrite ?List.filter_app, ?length_app; simpl.

Lemma posts_app t1 t2 : posts (t1 ++ t2) = (posts t1 + posts t2)%nat.
Proof. by count_calls. Qed.

Lemma executes_app t1 t2 : executes (t1 ++ t2) = (executes t1 + executes t2)%nat.
Proof. by count_calls. Qed.

Lemma commits_app t1 t2 : commits (t1 ++ t2) = (commits t1 + commits t2)%nat.
Proof. by count_calls. Qed.

Lemma in_order_app prev t1 t2 :
  in_order prev t1 = true → self_contained t2 → in_order prev (t1 ++ t2) = true.
Proof.
  revert prev. induction t1 as [|e t1 IH]; intros prev; simpl; [auto|].
  intros [He Ht]%andb_true_iff H2. rewrite He. simpl. auto.
Qed.

Lemma self_contained_app t1 t2 :
  self_contained t1 → self_contained t2 → self_contained (t1 ++ t2).
Proof. intros H1 H2 prev. by apply in_order_app. Qed.

(** The calls of one turn, whatever its end: none, or a request, then
    possibly the [UPDATE], then possibly the commit, then possibly the
    pause, which no last turn has; and when the turn ends without an
    exception, the counters move with the calls. *)
Lemma loop_body_calls E total i r c w res w' :
  loop_body E total i r c w = (res, w') →
  ∃ evs, trace w' = trace w ++ evs
    ∧ self_contained evs
    ∧ (posts evs ≤ 1)%nat
    ∧ (commits evs ≤ executes evs ≤ posts evs)%nat
    ∧ (sleeps evs ≤ posts evs)%nat
    ∧ ((total ≤ i)%nat → sleeps evs = 0%nat)
    ∧ ∀ c', res = inr c' →
        generated c' = (generated c + posts evs)%nat
        ∧ (written c + executes evs ≤ written c')%nat
        ∧ (success c' ≤ success c + commits evs)%nat
        ∧ (written c' ≤ written c + posts evs)%nat.
Proof.
  intros Hb. destruct res as [e|c'].
  - apply loop_body_effect in Hb
      as [->|[(t & cl & ->)|(t & cl & rid & kw & desc & b & w2 & _ & _ & _ & ?)]];
      [| |done].
    + exists []. rewrite app_nil_r.
      repeat split; intros; simplify_eq; count_calls; lia.
    + exists [EvPost t cl]. split; [done|].
      repeat split; intros; simplify_eq; count_calls; lia.
  - apply loop_body_turn in Hb as (o & Ht & ->).
    destruct Ht as [rid t Hid Ht Hs Hst
                   |rid t clean Hid Ht Hs Hst Hc Hnt
                   |rid t clean meta w1 Hid Ht Hs Hst Hc Hnt Hg Hm
                   |rid t clean meta w1 kw desc b w2
                      Hid Ht Hs Hst Hc Hnt Hg Hm Hk Hpk Hd Hpd Hu].
    + exists []. rewrite app_nil_r.
      repeat split; intros; simplify_eq; destruct c; count_calls; lia.
    + exists []. rewrite app_nil_r.
      repeat split; intros; simplify_eq; destruct c; count_calls; lia.
    + apply generate_world in Hg as ->. exists [EvPost t clean].
      split; [done|].
      repeat split; intros; simplify_eq; destruct c; count_calls; lia.
    + apply generate_world in Hg as ->.
      apply update_trace in Hu as (evs & Htr & Hevs & Hb).
      exists ((EvPost t clean :: evs)
              ++ (if (i <? total)%nat then [EvSleep API_DELAY] else [])).
      split.
      { unfold pause. destruct (i <? total)%nat; simpl; rewrite Htr; simpl;
          rewrite <- ?app_assoc; simpl; by rewrite ?app_nil_r. }
      assert (Hev : evs = [EvExecute rid kw desc; EvCommit]
                    ∨ (b = false
                       ∧ (evs = [] ∨ evs = [EvExecute rid kw desc]))).
      { destruct b; [left; auto|]. destruct Hevs as [?|[?|?]]; auto. }
      clear Hb Hevs Htr.
      destruct (i <? total)%nat eqn:Hi;
        [apply Nat.ltb_lt in Hi|apply Nat.ltb_ge in Hi];
        destruct Hev as [->|[-> [->| ->]]];
        repeat split; intros; simplify_eq; destruct c; try destruct b;
        count_calls; lia.
Qed.

Lemma loop_calls E total records : ∀ i c w res w',
  loop E total i records c w = (res, w') →
  ∃ evs, trace w' = trace w ++ evs
    ∧ self_contained evs
    ∧ (posts evs ≤ length records)%nat
    ∧ (commits evs ≤ executes evs ≤ posts evs)%nat
    ∧ (sleeps evs ≤ posts evs)%nat
    ∧ ((total < i + length records)%nat → (sleeps evs ≤ length records - 1)%nat)
    ∧ ∀ c', res = inr c' →
        generated c' = (generated c + posts evs)%nat
        ∧ (written c + executes evs ≤ written c')%nat
        ∧ (success c' ≤ success c + commits evs)%nat
        ∧ (written c' ≤ written c + posts evs)%nat.
Proof.
  induction records as [|r rest IH]; intros i c w res w'; simpl.
  - unfold_M. intros [= <- <-]. exists []. rewrite app_nil_r.
    repeat split; intros; simplify_eq; count_calls; lia.
  - unfold_M.
    destruct (loop_body E total i r c w) as [[e|c1] w1] eqn:Hb.
    + intros [= <- <-].
      apply loop_body_calls in Hb
        as (evs & Htr & Hord & Hp & Hx & Hs & Hlast & _).
      exists evs. split; [done|]. split; [done|].
      repeat split; intros; simplify_eq; lia.
    + intros Hl.
      apply IH in Hl as (evs2 & Htr2 & Hord2 & Hp2 & Hx2 & Hs2 & Hb2 & Hk2).
      apply loop_body_calls in Hb
        as (evs1 & Htr1 & Hord1 & Hp1 & Hx1 & Hs1 & Hlast & Hk1).
      destruct (Hk1 c1 eq_refl) as (Hg1 & Hw1 & Hsu1 & Hwp1).
      exists (evs1 ++ evs2). split; [by rewrite Htr2, Htr1, app_assoc|].
      split; [by apply self_contained_app|].
      rewrite posts_app, executes_app, commits_app, sleeps_app.
      repeat split; intros; try lia.
      all: match goal with
           | H : _ = inr _ |- _ => destruct (Hk2 _ H) as (? & ? & ? & ?); lia
           end.
Qed.

(** X1: when the batch comes to its end, the requests it sent are as many
    as the records counted [success], [skipped_api_errors] or
    [skipped_db_errors]; the [UPDATE] statements it sent are at most the
    records counted [success] or [skipped_db_errors], since a write can
    fail before its statement is sent; and every [success] has its
    [UPDATE] and its commit. *)
Theorem calls_match_counters E records w c w' :
  process_records E records w = (inr c, w') →
  ∃ evs, trace w' = trace w ++ evs
    ∧ posts evs
      = (success c + skipped_api_errors c + skipped_db_errors c)%nat
    ∧ (success c ≤ commits evs)%nat
    ∧ (commits evs ≤ executes evs)%nat
    ∧ (executes evs ≤ success c + skipped_db_errors c)%nat.
Proof.
  unfold process_records. intros Hl.
  apply loop_calls in Hl as (evs & Htr & _ & _ & Hc & _ & _ & Hk).
  destruct (Hk c eq_refl) as (Hg & Hw & Hs & _).
  exists evs. split; [done|].
  unfold generated, written in *. simpl in *. lia.
Qed.

Lemma calls_match_counters_witness :
  ∃ evs,
    [EvPost (PStr (lit "Rome")) (lit "Rome is a city.");
     EvExecute (PInt 1) (PStr (lit "rome, city"))
               (PStr (lit "Discover Rome today."));
     EvCommit] = [] ++ evs
    ∧ posts evs = (1 + 0 + 0)%nat
    ∧ (1 ≤ commits evs)%nat
    ∧ (commits evs ≤ executes evs)%nat
    ∧ (executes evs ≤ 1 + 0)%nat.
Proof.
  exact (calls_match_counters
           (Demo.env (Response 200 (Demo.completion_text Demo.rome_meta_text)) true)
           [fetch_row (2, Demo.draft); fetch_row (3, Demo.blank_page);
            fetch_row (1, Demo.rome)]
           Demo.start (Counters 1 1 0 0 1) _ eq_refl).
Defined.

(** X2: however the batch ends, an exception included, its calls come in
    this order: every [UPDATE] right after a request, every commit right
    after an [UPDATE], every sleep right after a request, an [UPDATE] or
    a commit. It sends at most one request per record and sleeps at most
    once less than there are records. *)
Theorem calls_bounded_by_records E records w res w' :
  process_records E records w = (res, w') →
  ∃ evs, trace w' = trace w ++ evs
    ∧ in_order None evs = true
    ∧ (posts evs ≤ length records)%nat
    ∧ (sleeps evs ≤ length records - 1)%nat.
Proof.
  unfold process_records. intros Hl.
  apply loop_calls in Hl as (evs & Htr & Hord & Hp & _ & _ & Hb & _).
  exists evs. repeat (split; [done|]). apply Hb. lia.
Qed.

Lemma calls_bounded_by_records_witness :
  ∃ evs,
    [EvPost (PStr (lit "Rome")) (lit "Rome is a city.");
     EvExecute (PInt 1) (PStr (lit "rome, city"))
               (PStr (lit "Discover Rome today."));
     EvCommit;
     EvSleep 1] = [] ++ evs
    ∧ in_order None evs = true
    ∧ (posts evs ≤ 2)%nat
    ∧ (sleeps evs ≤ 2 - 1)%nat.
Proof.
  exact (calls_bounded_by_records
           (Demo.env (Response 200 (Demo.completion_text Demo.rome_meta_text)) true)
           [fetch_row (1, Demo.rome); fetch_row (2, Demo.draft)]
           Demo.start _ _ eq_refl).
Defined.

(** *** Exceptions *)

(** X3: an exception raised while a record is handled ends the batch
    there. The batch raises it, the world is as that turn left it, so
    what earlier turns committed stays committed, and the records after
    it are not handled. *)
Theorem exception_ends_batch E total pre r post : ∀ i c w c1 w1 e w2,
  loop E total i pre c w = (inr c1, w1) →
  loop_body E total (i + length pre) r c1 w1 = (inl e, w2) →
  loop E total i (pre ++ r :: post) c w = (inl e, w2).
Proof.
  induction pre as [|p pre IH]; intros i c w c1 w1 e w2; simpl.
  - unfold_M. intros [= <- <-]. rewrite Nat.add_0_r. by intros ->.
  - unfold_M.
    destruct (loop_body E total i p c w) as [[e'|c'] w'] eqn:Hp; [done|].
    intros Hpre Hr. eapply IH; [done|].
    by replace (S i + length pre)%nat with (i + S (length pre))%nat by lia.
Qed.

Lemma exception_ends_batch_witness :
  loop (Demo.env (Response 200 (Demo.completion_text Demo.foo_text)) true) 3 1
       ([fetch_row (2, Demo.draft)] ++ fetch_row (1, Demo.rome)
          :: [fetch_row (3, Demo.blank_page)])
       (Counters 0 0 0 0 0) Demo.start
  = (inl KeyError,
     log (EvPost (PStr (lit "Rome")) (lit "Rome is a city.")) Demo.start).
Proof.
  exact (exception_ends_batch
           (Demo.env (Response 200 (Demo.completion_text Demo.foo_text)) true)
           3 [fetch_row (2, Demo.draft)] (fetch_row (1, Demo.rome))
           [fetch_row (3, Demo.blank_page)]
           1 (Counters 0 0 0 0 0) Demo.start _ _ KeyError _ eq_refl eq_refl).
Defined.

(** X4: the two [print] calls that open a turn come before the test of
    [state]. A record without [id] or without [title] raises [KeyError],
    and one whose title cannot be sliced ([NULL], a number) raises
    [TypeError], before any call is made and whether or not the record is
    published. *)
Theorem header_raises_before_state_test E total i r c w :
  (r !! "id" = None ∨ r !! "title" = None →
   loop_body E total i r c w = (inl KeyError, w))
  ∧ (∀ record_id title,
       r !! "id" = Some record_id → r !! "title" = Some title →
       returns (slice_to 50 title) = false →
       loop_body E total i r c w = (inl TypeError, w)).
Proof.
  split.
  - intros Hmiss. unfold loop_body, item. unfold_M.
    destruct (r !! "id") as [rid|]; [|done].
    destruct Hmiss as [?|Ht]; [done|]. by rewrite Ht.
  - intros rid t Hid Ht Hs. unfold loop_body, item. unfold_M.
    rewrite Hid, Ht. by destruct t.
Qed.

Lemma header_raises_before_state_test_witness :
  loop_body (Demo.env ConnectionFailure true) 1 1
            (<["title" := PNone]> (fetch_row (2, Demo.draft)))
            (Counters 0 0 0 0 0) Demo.start
  = (inl TypeError, Demo.start).
Proof.
  exact (proj2 (header_raises_before_state_test
                  (Demo.env ConnectionFailure true) 1 1
                  (<["title" := PNone]> (fetch_row (2, Demo.draft)))
                  (Counters 0 0 0 0 0) Demo.start)
               (PInt 2) PNone eq_refl eq_refl eq_refl).
Defined.

(** *** The table *)

Lemma same_article_refl a : same_article a a.
Proof. by repeat split. Qed.

Lemma same_content_refl t : same_content t t.
Proof.
  intros k. destruct (t !! k); constructor. apply same_article_refl.
Qed.

Lemma same_content_trans t1 t2 t3 :
  same_content t1 t2 → same_content t2 t3 → same_content t1 t3.
Proof.
  intros H12 H23 k. specialize (H12 k). specialize (H23 k).
  destruct H12 as [a b (? & ? & ? & ?)|]; inversion H23 as [? c (? & ? & ? & ?)|];
    subst; constructor.
  repeat split; congruence.
Qed.

Lemma sql_update_same_content E record_id meta_keywords meta_description t :
  same_content t (sql_update E record_id meta_keywords meta_description t).
Proof.
  unfold sql_update. destruct (sql_key E record_id) as [z|];
    [|apply same_content_refl].
  intros k. destruct (decide (k = z)) as [->|Hk].
  - rewrite lookup_alter_eq. destruct (t !! z) as [a|]; constructor.
    by repeat split.
  - rewrite lookup_alter_ne by done.
    destruct (t !! k); constructor. apply same_article_refl.
Qed.

(** What a call of the writer does to the two tables, whatever it
    returns. *)
Lemma update_tables E record_id meta_keywords meta_description w res w' :
  update_content_meta E record_id meta_keywords meta_description w = (res, w') →
  (session w' = session w
   ∨ session w' = sql_update E record_id meta_keywords meta_description (session w))
  ∧ (committed w' = committed w ∨ committed w' = session w').
Proof.
  unfold update_content_meta.
  destruct (_ && sql_convertible meta_description);
    [destruct (sql_execute_ok _ _); [destruct (sql_commit_ok _ _)|]|];
    intros [= <- <-]; simpl; auto.
Qed.

Lemma pause_tables total i w :
  session (pause total i w) = session w
  ∧ committed (pause total i w) = committed w.
Proof. unfold pause. by destruct (i <? total)%nat. Qed.

(** The tables after one turn: the session is the one before, or the one
    before with the [UPDATE] for the record's [id]; the committed table is
    the one before or the session. *)
Lemma loop_body_tables E total i r c w res w' :
  loop_body E total i r c w = (res, w') →
  (session w' = session w
   ∨ ∃ record_id meta_keywords meta_description,
       r !! "id" = Some record_id
       ∧ session w'
         = sql_update E record_id meta_keywords meta_description (session w))
  ∧ (committed w' = committed w ∨ committed w' = session w').
Proof.
  intros [->|[(t & cl & ->)|(t & cl & rid & kw & desc & b & w2 & Hid & Hu & -> & _)]]%loop_body_effect;
    [auto..|].
  apply update_tables in Hu as [Hs Hc]. simpl in *.
  destruct (pause_tables total i w2) as [-> ->].
  split; [|done].
  destruct Hs as [->| ->]; [auto|]. right. by exists rid, kw, desc.
Qed.

Lemma loop_tables E total records : ∀ i c w res w',
  loop E total i records c w = (res, w') →
  same_content (session w) (session w')
  ∧ (committed w' = committed w ∨ same_content (session w) (committed w')).
Proof.
  induction records as [|r rest IH]; intros i c w res w'; simpl.
  - unfold_M. intros [= <- <-]. split; [apply same_content_refl|auto].
  - unfold_M.
    destruct (loop_body E total i r c w) as [[e|c1] w1] eqn:Hb.
    + intros [= <- <-]. apply loop_body_tables in Hb as [Hs Hc].
      assert (Hsame : same_content (session w) (session w1)).
      { destruct Hs as [->|(rid & kw & desc & _ & ->)];
          [apply same_content_refl|apply sql_update_same_content]. }
      split; [done|]. destruct Hc as [->| ->]; auto.
    + intros Hl. apply IH in Hl as [Hs2 Hc2].
      apply loop_body_tables in Hb as [Hs Hc].
      assert (Hsame : same_content (session w) (session w1)).
      { destruct Hs as [->|(rid & kw & desc & _ & ->)];
          [apply same_content_refl|apply sql_update_same_content]. }
      split; [by eapply same_content_trans|].
      destruct Hc2 as [->|Hc2].
      * destruct Hc as [->| ->]; auto.
      * right. by eapply same_content_trans.
Qed.

(** X5: however the batch ends, the table keeps its rows and every row
    its title, its two bodies and its state: the batch creates no row,
    deletes none and writes nothing but [metakey] and [metadesc]. This
    holds for the table as the connection sees it and, when the
    connection started from the committed content, for the committed
    table. *)
Theorem batch_keeps_articles E records w res w' :
  process_records E records w = (res, w') →
  same_content (session w) (session w')
  ∧ (same_content (committed w) (session w) →
     same_content (committed w) (committed w')).
Proof.
  unfold process_records. intros [Hs Hc]%loop_tables. split; [done|].
  intros H0. destruct Hc as [->|Hc]; [apply same_content_refl|].
  by eapply same_content_trans.
Qed.

Lemma batch_keeps_articles_witness :
  ∃ w', process_records
          (Demo.env (Response 200 (Demo.completion_text Demo.rome_meta_text)) true)
          [fetch_row (1, Demo.rome); fetch_row (2, Demo.draft)] Demo.start
        = (inr (Counters 1 0 0 0 1), w')
        ∧ same_content Demo.table (session w')
        ∧ same_content Demo.table (committed w').
Proof.
  eexists. split; [reflexivity|].
  destruct (batch_keeps_articles
              (Demo.env (Response 200 (Demo.completion_text Demo.rome_meta_text)) true)
              [fetch_row (1, Demo.rome); fetch_row (2, Demo.draft)] Demo.start
              _ _ eq_refl) as [Hs Hc].
  split; [exact Hs|]. apply Hc. apply same_content_refl.
Defined.

Lemma sql_update_other E z meta_keywords meta_description (t : gmap Z row) k :
  k ≠ z →
  sql_update E (PInt z) meta_keywords meta_description t !! k = t !! k.
Proof. intros Hk. unfold sql_update. simpl. by rewrite lookup_alter_ne. Qed.

Lemma loop_row_untouched E total k records : ∀ i c w res w',
  (∀ r, r ∈ records → ∃ z, r !! "id" = Some (PInt z) ∧ z ≠ k) →
  loop E total i records c w = (res, w') →
  session w' !! k = session w !! k
  ∧ (committed w' !! k = committed w !! k
     ∨ committed w' !! k = session w !! k).
Proof.
  induction records as [|r rest IH]; intros i c w res w' Hids; simpl.
  - unfold_M. intros [= <- <-]. auto.
  - assert (Hturn : ∀ res1 w1, loop_body E total i r c w = (res1, w1) →
              session w1 !! k = session w !! k
              ∧ (committed w1 !! k = committed w !! k
                 ∨ committed w1 !! k = session w !! k)).
    { intros res1 w1 [Hs Hc]%loop_body_tables.
      destruct (Hids r) as (z & Hid & Hz); [left|].
      assert (Hk : session w1 !! k = session w !! k).
      { destruct Hs as [->|(rid & kw & desc & Hrid & ->)]; [done|].
        rewrite Hid in Hrid. injection Hrid as <-.
        by apply sql_update_other. }
      split; [done|]. destruct Hc as [->| ->]; auto. }
    unfold_M.
    destruct (loop_body E total i r c w) as [[e|c1] w1] eqn:Hb.
    + intros [= <- <-]. by apply (Hturn (inl e)).
    + intros Hl. destruct (Hturn _ _ eq_refl) as [Hs1 Hc1].
      apply IH in Hl as [Hs2 Hc2]; [|intros r' Hr'; apply Hids; by right].
      rewrite Hs2, Hs1. split; [done|].
      destruct Hc2 as [->| ->]; auto.
Qed.

(** X6: the batch writes to no row but those of its records. When every
    record carries an integer [id] other than [k], the row [k] is after
    the batch what it was before, however the batch ends; its committed
    version is the one before or, after a commit, the one the connection
    saw. *)
Theorem batch_leaves_other_rows E records k w res w' :
  (∀ r, r ∈ records → ∃ z, r !! "id" = Some (PInt z) ∧ z ≠ k) →
  process_records E records w = (res, w') →
  session w' !! k = session w !! k
  ∧ (committed w' !! k = committed w !! k
     ∨ committed w' !! k = session w !! k).
Proof. unfold process_records. apply loop_row_untouched. Qed.

Lemma batch_leaves_other_rows_witness :
  ∃ w', process_records
          (Demo.env (Response 200 (Demo.completion_text Demo.rome_meta_text)) true)
          [fetch_row (1, Demo.rome)] Demo.start
        = (inr (Counters 1 0 0 0 0), w')
        ∧ session w' !! 3 = Some Demo.blank_page.
Proof.
  eexists. split; [reflexivity|].
  refine (proj1 (batch_leaves_other_rows
            (Demo.env (Response 200 (Demo.completion_text Demo.rome_meta_text)) true)
            [fetch_row (1, Demo.rome)] 3 Demo.start _ _ _ eq_refl)).
  intros r ->%list_elem_of_singleton. by exists 1.
Defined.

(** *** Reading the record *)

(** X7: the batch does not look at [metakey] and [metadesc]. A record
    whose metadata is already set is handled as if it were not: it is
    generated for and written again. *)
Theorem existing_metadata_ignored E total i (r : record) c w old_keywords old_description :
  loop_body E total i
            (<["metakey" := old_keywords]> (<["metadesc" := old_description]> r))
            c w
  = loop_body E total i r c w.
Proof.
  unfold loop_body, item, get_clean_content, chosen_body, get_or_empty.
  by rewrite !lookup_insert_ne.
Qed.

Lemma trimmed_blank_empty t : trimmed t → blank t = true → t = [].
Proof.
  intros [Hh _] Hb. destruct t as [|a t]; [done|].
  simpl in Hb. apply andb_true_iff in Hb as [Ha _].
  specialize (Hh a eq_refl). congruence.
Qed.

(** X8: the text [get_clean_content] returns has no whitespace at either
    end, so it is empty or has visible text; the test of line 136 holds
    exactly when it is empty, its second half never deciding. *)
Theorem clean_content_empty_or_text E r t :
  get_clean_content E r = inr t →
  trimmed t ∧ (no_text t = true ↔ t = []).
Proof.
  intros Ht.
  assert (Htr : trimmed t).
  { unfold get_clean_content, clean_html_text in Ht.
    destruct (negb _); [injection Ht as <-; by split|].
    destruct (chosen_body r) as [| | | |s| |]; try done.
    destruct (soup_get_text E s); [|done].
    injection Ht as <-. apply strip_trimmed. }
  split; [done|]. rewrite no_text_blank. split.
  - by apply trimmed_blank_empty.
  - by intros ->.
Qed.

Lemma clean_content_empty_or_text_witness :
  trimmed (lit "Rome is a city.")
  ∧ (no_text (lit "Rome is a city.") = true ↔ lit "Rome is a city." = []).
Proof.
  exact (clean_content_empty_or_text (Demo.env ConnectionFailure true)
           (fetch_row (1, Demo.rome)) (lit "Rome is a city.") eq_refl).
Defined.

(** X9: the fallback to [introtext] looks at the markup of [fulltext],
    not at its text. When [fulltext] is markup that is not blank but
    holds no text, the cleaned text is empty whatever [introtext] holds. *)
Theorem markup_without_text_hides_introtext E (r : record) s text intro :
  r !! "fulltext" = Some (PStr s) →
  strip s ≠ [] →
  soup_get_text E s = Some text →
  blank text = true →
  get_clean_content E (<["introtext" := intro]> r) = inr [].
Proof.
  intros Hf Hs Htext Hb. unfold get_clean_content.
  rewrite (chosen_body_fulltext _ s) by (by rewrite ?lookup_insert_ne).
  unfold clean_html_text. destruct (negb _); [done|].
  by rewrite Htext, (strip_blank _ Hb).
Qed.

Lemma markup_without_text_hides_introtext_witness :
  get_clean_content (Demo.env ConnectionFailure true)
    (<["introtext" := PStr (lit "<p>Rome is a city.</p>")]>
       (<["fulltext" := PStr (lit "<p></p>")]> (fetch_row (1, Demo.rome))))
  = inr [].
Proof.
  apply (markup_without_text_hides_introtext _ _ (lit "<p></p>") []).
  - reflexivity.
  - by vm_compute.
  - reflexivity.
  - reflexivity.
Defined.

(** *** Code fences *)

Lemma fence_json_eq : fence_json = [96; 96; 96; 106; 115; 111; 110]%N.
Proof. reflexivity. Qed.

Lemma fence_eq : fence = [96; 96; 96]%N.
Proof. reflexivity. Qed.

Lemma replace_absent old new s :
  contains old s = false → replace old new s = s.
Proof.
  unfold replace. induction s as [|c s IH]; [done|].
  simpl. intros [Hs Hc]%orb_false_iff.
  destruct old as [|a old]; [done|].
  simpl in *. rewrite Hs. by rewrite IH.
Qed.

Lemma replace_from_clean a old new s t :
  Forall (λ c, c ≠ a) s →
  replace_from (a :: old) new 0 (s ++ t)
  = s ++ replace_from (a :: old) new 0 t.
Proof.
  induction 1 as [|c s Hc _ IH]; [done|].
  simpl. apply N.eqb_neq in Hc. rewrite N.eqb_sym in Hc. rewrite Hc. simpl.
  by rewrite <- IH.
Qed.

Lemma starts_with_longer p q s :
  starts_with p s = false → starts_with (p ++ q) s = false.
Proof.
  revert s. induction p as [|a p IH]; intros [|b s]; simpl; try done.
  intros [Hab|Hp]%andb_false_iff; apply andb_false_iff; auto.
Qed.

Lemma contains_fence_json s :
  contains fence s = false → contains fence_json s = false.
Proof.
  change fence_json with (fence ++ lit "json").
  induction s as [|a s IH].
  - intros _. reflexivity.
  - cbn [contains]. intros [Hs Hc]%orb_false_iff.
    apply orb_false_iff. split; [by apply starts_with_longer|auto].
Qed.

(** X10: what line 98 does to the text of a completion. A text without
    the fence is only trimmed; a text without backquote that is wrapped
    in the fence [```json] and the fence [```] loses both and is
    trimmed. *)
Theorem fences_removed s :
  (contains fence s = false → strip_fences (PStr s) = inr (strip s))
  ∧ (Forall (λ c, c ≠ 96%N) s →
     strip_fences (PStr (fence_json ++ s ++ fence)) = inr (strip s)).
Proof.
  split.
  - intros Hs. unfold strip_fences.
    rewrite (replace_absent fence_json) by (by apply contains_fence_json).
    by rewrite (replace_absent fence).
  - intros Hs. unfold strip_fences, mret, exc_ret. do 2 f_equal.
    assert (H1 : replace fence_json [] (fence_json ++ s ++ fence) = s ++ fence).
    { rewrite fence_json_eq. unfold replace. simpl.
      rewrite (replace_from_clean 96%N) by done.
      by rewrite fence_eq. }
    rewrite H1. rewrite fence_eq. unfold replace.
    rewrite (replace_from_clean 96%N) by done.
    simpl. by rewrite app_nil_r.
Qed.

Lemma fences_removed_witness :
  strip_fences (PStr (fence_json ++ lit " {} " ++ fence)) = inr (lit "{}").
Proof.
  refine (proj2 (fences_removed (lit " {} ")) _).
  repeat constructor; by vm_compute.
Defined.

(** *** The generator *)

Lemma generate_none E title content w :
  (∀ v, read_completion E (http_post E (trace w ++ [EvPost title content]))
        ≠ inr (Some v)) →
  generate_meta_with_deepseek E title content w
  = (inr PNone, log (EvPost title content) w).
Proof.
  intros Hr. unfold generate_meta_with_deepseek. simpl.
  destruct (read_completion E _) as [e|[v|]]; try done. by destruct (Hr v).
Qed.

Lemma read_completion_not_object E status body v :
  json_loads E body = Some v →
  match v with PDict _ => False | _ => True end →
  ∀ x, read_completion E (Response status body) ≠ inr (Some x).
Proof.
  intros Hb Hv x. unfold read_completion, raise_for_status, loads. rewrite Hb.
  destruct (_ && _); simpl; [done|].
  destruct v as [| | | |s|l|]; simpl; try done.
  - by destruct (PyStr.contains _ s).
  - by destruct (existsb _ l).
Qed.

(** X11: the failures the generator turns into [None], with the one
    request it made recorded: the request fails; the status is 4xx or
    5xx; the body is not JSON, or is JSON but no object, or an object
    without [choices] or with an empty list of them; the text of the
    first choice, fences removed, is not JSON. *)
Theorem generator_none_on_failure E title content w :
  let answer := http_post E (trace w ++ [EvPost title content]) in
  answer = ConnectionFailure
  ∨ (∃ status body, answer = Response status body
     ∧ (400 ≤ status < 600
        ∨ json_loads E body = None
        ∨ (∃ v, json_loads E body = Some v
                ∧ match v with PDict _ => False | _ => True end)
        ∨ (∃ d, json_loads E body = Some (PDict d)
                ∧ (dict_get (lit "choices") d = None
                   ∨ dict_get (lit "choices") d = Some (PList [])))
        ∨ (∃ d first others message s,
              json_loads E body = Some (PDict d)
              ∧ dict_get (lit "choices") d
                = Some (PList (PDict first :: others))
              ∧ dict_get (lit "message") first = Some (PDict message)
              ∧ dict_get (lit "content") message = Some (PStr s)
              ∧ json_loads E (strip (replace fence [] (replace fence_json [] s)))
                = None))) →
  generate_meta_with_deepseek E title content w
  = (inr PNone, log (EvPost title content) w).
Proof.
  intros answer Hcases. apply generate_none. fold answer. intros x.
  destruct Hcases as [->|(status & body & -> & Hcase)]; [done|].
  destruct Hcase as [Hst|[Hb|[(v & Hb & Hv)|[(d & Hb & Hd)|
                     (d & first & others & message & s
                      & Hb & Hd & Hf & Hm & Hs)]]]].
  - by rewrite read_completion_error_status.
  - by destruct (read_completion_body_not_json E status body Hb) as [e ->].
  - by eapply read_completion_not_object.
  - by destruct (read_completion_no_choices E status body d Hb Hd) as [-> | ->].
  - by destruct (read_completion_payload_not_json E status body d first others
                   message s Hb Hd Hf Hm Hs) as [e ->].
Qed.

Lemma generator_none_on_failure_witness :
  generate_meta_with_deepseek
    (Demo.env (Response 429 (Demo.completion_text Demo.rome_meta_text)) true)
    (PStr (lit "Rome")) (lit "Rome is a city.") Demo.start
  = (inr PNone,
     log (EvPost (PStr (lit "Rome")) (lit "Rome is a city.")) Demo.start).
Proof.
  apply generator_none_on_failure. right.
  exists 429, (Demo.completion_text Demo.rome_meta_text).
  split; [reflexivity|]. left. lia.
Defined.

(** X12: what the generator returns when nothing fails. For a status
    outside 400..599 and a body that is an object whose [choices] is a
    list, the value is what [json.loads] makes of the text of the first
    choice, fences removed: the other choices play no part and the value
    is not looked at. *)
Theorem generator_returns_first_choice E title content w
    status body d first others message s v :
  http_post E (trace w ++ [EvPost title content]) = Response status body →
  ¬ (400 ≤ status < 600) →
  json_loads E body = Some (PDict d) →
  dict_get (lit "choices") d = Some (PList (PDict first :: others)) →
  dict_get (lit "message") first = Some (PDict message) →
  dict_get (lit "content") message = Some (PStr s) →
  json_loads E (strip (replace fence [] (replace fence_json [] s))) = Some v →
  generate_meta_with_deepseek E title content w
  = (inr v, log (EvPost title content) w).
Proof.
  intros Ha Hst Hb Hd Hf Hm Hs.
  unfold generate_meta_with_deepseek. simpl. rewrite Ha.
  unfold read_completion, raise_for_status, loads. rewrite Hb.
  assert ((400 <=? status) && (status <? 600) = false) as ->.
  { apply andb_false_iff.
    destruct (Z.leb_spec 400 status), (Z.ltb_spec status 600); auto. lia. }
  simpl. rewrite Hd. simpl. rewrite Hf. simpl. rewrite Hm. simpl.
  by rewrite Hs.
Qed.

Lemma generator_returns_first_choice_witness :
  generate_meta_with_deepseek
    (Demo.env (Response 200 (Demo.completion_text Demo.rome_meta_text)) true)
    (PStr (lit "Rome")) (lit "Rome is a city.") Demo.start
  = (inr Demo.rome_meta,
     log (EvPost (PStr (lit "Rome")) (lit "Rome is a city.")) Demo.start).
Proof.
  apply (generator_returns_first_choice _ _ _ _ 200
           (Demo.completion_text Demo.rome_meta_text)
           [(lit "choices",
             PList [PDict [(lit "message",
                            PDict [(lit "content", PStr Demo.rome_meta_text)])]])]
           [(lit "message", PDict [(lit "content", PStr Demo.rome_meta_text)])]
           []
           [(lit "content", PStr Demo.rome_meta_text)]
           Demo.rome_meta_text);
    try reflexivity.
  lia.
Defined.

(** *** Writing twice *)




(** *** What the selector fetches *)

Lemma get_content_records_fetched E limit w res w' :
  get_content_records E limit w = (inr res, w') →
  (res = None ∧ w' = w ∨ w' = log (EvQuery (limit_clause limit)) w)
  ∧ ∀ records, res = Some records →
      w' = log (EvQuery (limit_clause limit)) w
      ∧ records = fetch_row <$> fetched limit w
      ∧ ∀ n, limit_clause limit = Some n → 0 < n.
Proof.
  unfold get_content_records, fetched.
  change (merge_sort by_id
            (map_to_list (session (log (EvQuery (limit_clause limit)) w))))
    with (rows_by_id w).
  destruct (sql_cursor_ok E _); [|intros [= <- <-]; split; [auto|done]].
  destruct (sql_execute_ok E _); [|intros [= <- <-]; split; [auto|done]].
  pose proof (limit_clause_spec limit) as Hspec.
  destruct (limit_clause limit) as [n|]; simpl.
  - destruct (n <? 0) eqn:Hn; simpl; intros [= <- <-]; (split; [auto|]);
      intros records [= <-]. split; [done|]. split; [done|].
    intros m [= <-]. apply Z.ltb_ge in Hn.
    destruct limit as [k|]; [|done]. case_decide; [done|].
    injection Hspec as ->. lia.
  - intros [= <- <-]. split; [auto|]. by intros records [= <-].
Qed.

Lemma fetched_sublist limit w : fetched limit w ⊆+ map_to_list (session w).
Proof.
  unfold fetched. destruct (limit_clause limit).
  - rewrite <- rows_by_id_all. apply submseteq_take.
  - by rewrite rows_by_id_all.
Qed.

Lemma fetched_length limit w :
  length (fetched limit w)
  = match limit_clause limit with
    | None => size (session w)
    | Some n => (Z.to_nat n `min` size (session w))%nat
    end.
Proof.
  assert (Hall : length (rows_by_id w) = size (session w)).
  { rewrite (Permutation_length (rows_by_id_all w)). apply length_map_to_list. }
  unfold fetched. destruct (limit_clause limit); [|done].
  by rewrite length_take, Hall.
Qed.

Lemma fetch_row_id kv : fetch_row kv !! "id" = Some (PInt kv.1).
Proof. unfold fetch_row. by rewrite lookup_insert_eq. Qed.

Lemma StronglySorted_strict (l : list Z) :
  StronglySorted Z.le l → NoDup l → StronglySorted Z.lt l.
Proof.
  induction 1 as [|x l Hl IH Hx]; intros Hnd; [constructor|].
  apply NoDup_cons in Hnd as [Hnot Hnd]. constructor; [auto|].
  rewrite Forall_forall in Hx |- *. intros y Hy.
  specialize (Hx y Hy). assert (x ≠ y) by (by intros ->). lia.
Qed.

Lemma fetched_ids_sorted limit w : StronglySorted Z.lt (fetched limit w).*1.
Proof.
  assert (Hall : StronglySorted Z.lt (rows_by_id w).*1).
  { apply StronglySorted_strict; [apply rows_by_id_sorted|].
    rewrite (rows_by_id_all w). apply NoDup_fst_map_to_list. }
  unfold fetched. destruct (limit_clause limit); [|done].
  rewrite fmap_take. by apply StronglySorted_take.
Qed.

(** X14: the records of a query that succeeded carry the ids of rows of
    the table, in strictly ascending order, so no row comes twice; they
    are all the rows when the query has no [LIMIT], and the smaller of
    the limit and the number of rows otherwise. *)
Theorem fetched_ids_strictly_ascending E limit w records w' :
  get_content_records E limit w = (inr (Some records), w') →
  ∃ ids,
    (λ r : record, r !! "id") <$> records = (λ z, Some (PInt z)) <$> ids
    ∧ StronglySorted Z.lt ids
    ∧ (∀ z, z ∈ ids → is_Some (session w !! z))
    ∧ length records
      = match limit_clause limit with
        | None => size (session w)
        | Some n => (Z.to_nat n `min` size (session w))%nat
        end.
Proof.
  intros [_ Hrec]%get_content_records_fetched.
  destruct (Hrec records eq_refl) as (_ & -> & _).
  exists (fetched limit w).*1. split; [|split; [|split]].
  - rewrite <- !list_fmap_compose. apply list_fmap_ext.
    intros _ kv _. apply fetch_row_id.
  - apply fetched_ids_sorted.
  - intros z ([z' r] & -> & Hin)%list_elem_of_fmap.
    eapply elem_of_submseteq in Hin; [|apply fetched_sublist].
    apply elem_of_map_to_list in Hin. by exists r.
  - rewrite length_fmap. apply fetched_length.
Qed.

Lemma fetched_ids_strictly_ascending_witness :
  ∃ ids,
    [Some (PInt 1); Some (PInt 2)] = (λ z, Some (PInt z)) <$> ids
    ∧ StronglySorted Z.lt ids
    ∧ (∀ z, z ∈ ids → is_Some (Demo.table !! z))
    ∧ 2%nat = (Z.to_nat 2 `min` size Demo.table)%nat.
Proof.
  exact (fetched_ids_strictly_ascending (Demo.env ConnectionFailure true)
           RECORDS_LIMIT Demo.start _ _ eq_refl).
Defined.

(** *** A batch that comes to its end *)

Lemma usable_metadata_fields v :
  usable_metadata v = true →
  ∃ meta_keywords meta_description,
    getitem_str v (lit "meta_keywords") = inr meta_keywords
    ∧ encodable meta_keywords = true
    ∧ getitem_str v (lit "meta_description") = inr meta_description
    ∧ encodable meta_description = true.
Proof.
  unfold usable_metadata.
  destruct (getitem_str v (lit "meta_keywords")) as [|kw]; [done|].
  destruct (getitem_str v (lit "meta_description")) as [|desc]; [done|].
  intros [? ?]%andb_true_iff. by exists kw, desc.
Qed.

Lemma loop_body_completes E total i r c w :
  content_record r = true →
  markup_accepted E r = true →
  sound_generator E →
  ∃ o w', loop_body E total i r c w = (inr (tally o c), w').
Proof.
  intros Hr Hacc Hsound.
  destruct (get_clean_content_returns E r Hr Hacc) as [clean Hc].
  unfold content_record in Hr.
  destruct (r !! "id") as [[| |z| | | |]|] eqn:Hid; try done.
  destruct (r !! "title") as [[| | | |s| |]|] eqn:Ht; try done.
  destruct (unpublished r) eqn:Hst.
  { exists SkippedState, w. apply turn_loop_body. by eapply turn_state. }
  destruct (no_text clean) eqn:Hnt.
  { exists SkippedEmpty, w. apply turn_loop_body. by eapply turn_empty. }
  destruct (generate_returns E (PStr s) clean w) as [meta Hg].
  destruct (truthy meta) eqn:Hm.
  2:{ exists SkippedApiErrors. eexists. apply turn_loop_body.
      by eapply turn_api. }
  destruct (usable_metadata_fields _ (Hsound _ _ _ _ _ Hg Hm))
    as (kw & desc & Hkw & Hpk & Hdesc & Hpd).
  destruct (update_returns E (PInt z) kw desc (log (EvPost (PStr s) clean) w))
    as (b & w2 & Hu).
  exists (if b then Success else SkippedDbErrors), (pause total i w2).
  apply turn_loop_body. by eapply turn_write.
Qed.

Lemma loop_completes E total records : ∀ i c w,
  Forall (λ r, content_record r = true ∧ markup_accepted E r = true) records →
  sound_generator E →
  ∃ c' w', loop E total i records c w = (inr c', w').
Proof.
  induction records as [|r records IH]; intros i c w Hrs Hsound; simpl.
  - by exists c, w.
  - inversion Hrs as [|? ? [Hr Hacc] Hrs']; subst.
    destruct (loop_body_completes E total i r c w Hr Hacc Hsound)
      as (o & w1 & Hb).
    destruct (IH (S i) (tally o c) w1 Hrs' Hsound) as (c' & w' & Hl).
    exists c', w'. unfold_M. by rewrite Hb.
Qed.

(** X15: no failure of the generator or of the writer stops the batch.
    When the records are as the table gives them (an integer [id], a
    string for title, strings or [NULL] for the bodies), the parser
    accepts the markup of each body, and whatever the generator returns
    is falsy or has both fields, fit for the console, the batch comes to
    its end, whatever the requests and the writes come to, and its five
    counters add up to the number of records. *)
Theorem batch_completes_and_counts E records w :
  Forall (λ r, content_record r = true ∧ markup_accepted E r = true) records →
  sound_generator E →
  ∃ c w', process_records E records w = (inr c, w')
          ∧ (success c + skipped_empty c + skipped_api_errors c
             + skipped_db_errors c + skipped_state c)%nat
            = length records.
Proof.
  intros Hrs Hsound.
  destruct (loop_completes E (length records) records 1 (Counters 0 0 0 0 0) w
              Hrs Hsound) as (c & w' & Hl).
  exists c, w'. split; [done|]. by apply loop_total_count in Hl.
Qed.

Lemma sound_generator_demo :
  sound_generator
    (Demo.env (Response 200 (Demo.completion_text Demo.rome_meta_text)) false).
Proof.
  intros t c w v w1 Hg _. unfold generate_meta_with_deepseek in Hg.
  change (http_post _ _)
    with (Response 200 (Demo.completion_text Demo.rome_meta_text)) in Hg.
  assert (Hr : read_completion
                 (Demo.env (Response 200 (Demo.completion_text Demo.rome_meta_text)) false)
                 (Response 200 (Demo.completion_text Demo.rome_meta_text))
               = inr (Some Demo.rome_meta)) by (by vm_compute).
  rewrite Hr in Hg. by injection Hg as <- _.
Defined.

Lemma batch_completes_and_counts_witness :
  ∃ c w',
    process_records
      (Demo.env (Response 200 (Demo.completion_text Demo.rome_meta_text)) false)
      [fetch_row (1, Demo.rome); fetch_row (2, Demo.draft);
       fetch_row (3, Demo.blank_page)] Demo.start
    = (inr c, w')
    ∧ (success c + skipped_empty c + skipped_api_errors c
       + skipped_db_errors c + skipped_state c)%nat = 3%nat.
Proof.
  apply batch_completes_and_counts.
  - repeat constructor.
  - exact sound_generator_demo.
Defined.

(** *** The entry point *)

Lemma get_content_records_returns E limit w :
  ∃ res w', get_content_records E limit w = (inr res, w').
Proof.
  unfold get_content_records.
  destruct (sql_cursor_ok E _); [|eauto].
  destruct (sql_execute_ok E _); [|eauto].
  destruct (sql_limit _ _); eauto.
Qed.

Lemma fetch_row_content_record k r :
  typed_row r = true → content_record (fetch_row (k, r)) = true.
Proof.
  unfold typed_row, content_record, fetch_row. simpl.
  rewrite lookup_insert_eq.
  rewrite (lookup_insert_ne _ "id" "title"), lookup_insert_eq by done.
  by destruct (title r).
Qed.

Lemma fetched_content_records E limit w :
  map_Forall (λ k r, typed_row r = true
                     ∧ markup_accepted E (fetch_row (k, r)) = true)
             (session w) →
  Forall (λ r, content_record r = true ∧ markup_accepted E r = true)
         (fetch_row <$> fetched limit w).
Proof.
  intros Hty. rewrite Forall_fmap. apply Forall_forall.
  intros [k r] Hin. simpl.
  eapply elem_of_submseteq in Hin; [|apply fetched_sublist].
  apply elem_of_map_to_list in Hin.
  destruct (Hty k r Hin) as [Ht Hacc]. split; [|done].
  by apply fetch_row_content_record.
Qed.

(** X16: [main] end to end. With a connection, a table whose rows are
    typed as the schema has them and hold markup the parser accepts, and
    a generator that keeps its contract, [main] raises nothing and closes
    the connection. It stops when the query is not sent or fails or
    fetches nothing; otherwise it reports counters that add up to the
    number of records fetched, which is the number of rows, or the limit
    if that is smaller. *)
Theorem main_reports_every_fetched_record E limit w :
  map_Forall (λ k r, typed_row r = true
                     ∧ markup_accepted E (fetch_row (k, r)) = true)
             (session w) →
  sound_generator E →
  ∃ out w', main_with E limit true w = (inr out, w', Closed)
    ∧ match out with
      | NoConnection => False
      | NoRecords => w' = w ∨ w' = log (EvQuery (limit_clause limit)) w
      | Reported total result =>
          (success result + skipped_empty result + skipped_api_errors result
           + skipped_db_errors result + skipped_state result)%nat = total
          ∧ (0 < total)%nat
          ∧ total = match limit_clause limit with
                    | None => size (session w)
                    | Some n => (Z.to_nat n `min` size (session w))%nat
                    end
      end.
Proof.
  intros Hty Hsound. unfold main_with, main_try. simpl. unfold_M.
  destruct (get_content_records_returns E limit w) as (res & w1 & Hg).
  rewrite Hg.
  destruct (get_content_records_fetched _ _ _ _ _ Hg) as [Hw Hrec].
  destruct res as [[|r rs]|].
  - exists NoRecords, w1. split; [done|]. right.
    by destruct (Hrec [] eq_refl) as (-> & _).
  - destruct (Hrec _ eq_refl) as (-> & Hrs & _).
    destruct (loop_completes E (length (r :: rs)) (r :: rs) 1
                (Counters 0 0 0 0 0) (log (EvQuery (limit_clause limit)) w))
      as (c & w' & Hp).
    { rewrite Hrs. by apply fetched_content_records. }
    { done. }
    unfold process_records. rewrite Hp.
    exists (Reported (length (r :: rs)) c), w'.
    split; [done|]. split; [by apply loop_total_count in Hp|].
    split; [simpl; lia|].
    rewrite Hrs, length_fmap. apply fetched_length.
  - exists NoRecords, w1. split; [done|].
    destruct Hw as [[_ ->]| ->]; auto.
Qed.

Lemma main_reports_every_fetched_record_witness :
  ∃ out w',
    main (Demo.env (Response 200 (Demo.completion_text Demo.rome_meta_text)) false)
         true Demo.start
    = (inr out, w', Closed)
    ∧ match out with
      | NoConnection => False
      | NoRecords => w' = Demo.start ∨ w' = log (EvQuery (Some 2)) Demo.start
      | Reported total result =>
          (success result + skipped_empty result + skipped_api_errors result
           + skipped_db_errors result + skipped_state result)%nat = total
          ∧ (0 < total)%nat ∧ total = 2%nat
      end.
Proof.
  apply (main_reports_every_fetched_record
           (Demo.env (Response 200 (Demo.completion_text Demo.rome_meta_text)) false)
           RECORDS_LIMIT Demo.start).
  - intros k r Hr. change (session Demo.start) with Demo.table in Hr.
    unfold Demo.table in Hr.
    apply lookup_insert_Some in Hr as [[<- <-]|[_ Hr]]; [done|].
    apply lookup_insert_Some in Hr as [[<- <-]|[_ Hr]]; [done|].
    by apply lookup_singleton_Some in Hr as [<- <-].
  - exact sound_generator_demo.
Defined.

(** X17: the calls of [main], however it ends. Without a connection it
    makes none. With one, its calls come in order: the query, if any,
    first and once, every [UPDATE] right after a request, every commit
    right after an [UPDATE], every sleep right after a request, an
    [UPDATE] or a commit. Without a cursor it sends nothing; with one it
    sends the query, then at most one request per row of the table,
    nothing when no records come back, and under a positive limit [n] at
    most [n] requests and [n - 1] sleeps. It closes the connection, an
    exception in the batch included. *)
Theorem main_calls_bounded E limit reachable w res w' conn :
  main_with E limit reachable w = (res, w', conn) →
  (reachable = false → w' = w ∧ res = inr NoConnection ∧ conn = NeverOpened)
  ∧ (reachable = true →
     conn = Closed
     ∧ ∃ evs, trace w' = trace w ++ evs
         ∧ in_order None evs = true
         ∧ (sql_cursor_ok E (trace w) = false → evs = [] ∧ res = inr NoRecords)
         ∧ (sql_cursor_ok E (trace w) = true →
            ∃ calls, evs = EvQuery (limit_clause limit) :: calls
              ∧ (posts calls ≤ size (session w))%nat
              ∧ (res = inr NoRecords → calls = [])
              ∧ ∀ n, limit = Some n → 0 < n →
                  (posts calls ≤ Z.to_nat n)%nat
                  ∧ (sleeps calls ≤ Z.to_nat n - 1)%nat)).
Proof.
  unfold main_with. destruct reachable; simpl.
  2:{ intros [= <- <- <-]. by split. }
  destruct (main_try E limit w) as [res1 w1] eqn:Hm.
  intros [= <- <- <-]. split; [done|]. intros _. split; [done|].
  revert Hm. unfold main_try. unfold_M.
  destruct (get_content_records E limit w) as [[e|fetched_records] w0] eqn:Hg.
  { destruct (get_content_records_returns E limit w) as (? & ? & ?).
    congruence. }
  destruct (get_content_records_fetched _ _ _ _ _ Hg) as [Hw Hrec].
  assert (Hcur : sql_cursor_ok E (trace w) = false
                 → fetched_records = None ∧ w0 = w).
  { revert Hg. unfold get_content_records. intros Hg Hc. rewrite Hc in Hg.
    by injection Hg as <- <-. }
  assert (Hsent : sql_cursor_ok E (trace w) = true
                  → w0 = log (EvQuery (limit_clause limit)) w).
  { revert Hg. unfold get_content_records. intros Hg Hc. rewrite Hc in Hg.
    destruct (sql_execute_ok E _); [destruct (sql_limit _ _)|];
      by injection Hg as _ <-. }
  destruct fetched_records as [[|r rs]|].
  1,3: intros [= <- <-];
       destruct (sql_cursor_ok E (trace w)) eqn:Hc;
       [ rewrite (Hsent eq_refl); exists [EvQuery (limit_clause limit)];
         repeat split; try done; intros _; exists [];
         repeat split; intros; simplify_eq; count_calls; lia
       | destruct (Hcur eq_refl) as [_ ->]; exists [];
         rewrite app_nil_r; by repeat split ].
  destruct (Hrec _ eq_refl) as (-> & Hrs & _).
  assert (Hc : sql_cursor_ok E (trace w) = true).
  { destruct (sql_cursor_ok E (trace w)); [done|].
    by destruct (Hcur eq_refl). }
  assert (Hlen : length (r :: rs)
                 = match limit_clause limit with
                   | None => size (session w)
                   | Some n => (Z.to_nat n `min` size (session w))%nat
                   end)
    by (rewrite Hrs, length_fmap; apply fetched_length).
  destruct (process_records E (r :: rs) _) as [res2 w2] eqn:Hp.
  unfold process_records in Hp.
  apply loop_calls in Hp as (calls & Htr & Hord & Hposts & _ & _ & Hsl & _).
  assert (Hsl' : (sleeps calls ≤ length (r :: rs) - 1)%nat) by (apply Hsl; lia).
  intros Hm.
  assert (w1 = w2 ∧ res1 ≠ inr NoRecords) as [-> Hnot].
  { destruct res2; injection Hm as <- <-; by split. }
  exists (EvQuery (limit_clause limit) :: calls).
  split; [by rewrite Htr; simpl; rewrite <- app_assoc|].
  split; [apply Hord|]. split; [congruence|]. intros _.
  exists calls. split; [done|].
  rewrite Hlen in Hposts, Hsl'. clear Hlen Hm Hsl.
  split; [destruct (limit_clause limit); lia|].
  split; [done|].
  intros n -> Hn. simpl in Hposts, Hsl'.
  assert ((n =? 0) = false) as Hz by (apply Z.eqb_neq; lia).
  rewrite Hz in Hposts, Hsl'. simpl in Hposts, Hsl'. lia.
Qed.

Lemma main_calls_bounded_witness :
  ∃ w' calls,
    main (Demo.env (Response 200 (Demo.completion_text Demo.foo_text)) true)
         true Demo.start
    = (inl KeyError, w', Closed)
    ∧ trace w' = [] ++ EvQuery (Some 2) :: calls
    ∧ in_order None (EvQuery (Some 2) :: calls) = true
    ∧ (posts calls ≤ 2)%nat
    ∧ (sleeps calls ≤ 2 - 1)%nat.
Proof.
  eexists.
  destruct (main_calls_bounded
              (Demo.env (Response 200 (Demo.completion_text Demo.foo_text)) true)
              RECORDS_LIMIT true Demo.start _ _ _ eq_refl) as [_ H].
  destruct (H eq_refl) as (_ & evs & Htr & Hord & _ & Hsent).
  destruct (Hsent eq_refl) as (calls & -> & _ & _ & Hn).
  destruct (Hn 2 eq_refl eq_refl) as [Hp Hs].
  exists calls. split; [reflexivity|]. by repeat split.
Defined.
